(** * flash.py: flashing a Raspberry Pi Pico and monitoring its serial port

    A shallow embedding of [flash.py] and the properties of its
    device-discovery, flashing and monitoring functions.

    The script talks to the operating system all the time (serial ports, the
    Windows registry, mounted volumes, the file system, a shelve database,
    stdout, the clock).  Each function of the script is embedded as a
    computation in a small monad that
    - reads the answers of the operating system from an environment [Env]
      of oracles (the k-th answer of a call is a function of k),
    - threads a [State] holding the call counters, the shelve database and
      the trace of the effects performed so far,
    - returns a value, raises a Python exception, or is still inside a
      [while True] loop when its fuel is used up.

    Library calls that the script makes outside any [try] and whose failure
    it does not expect ([print], [time.sleep], [psutil.disk_partitions],
    writing the shelve database) return; an interrupt is only modelled where
    the script handles it, in the [readline] of the monitor.

    The label lookup [win32api.GetVolumeInformation] is embedded twice.  The
    script as a whole is embedded on a machine where every lookup answers:
    a [volume] comes with its label.  The lookup stands outside any [try]
    and raises for a drive that is not ready, so the volume matcher and the
    probe are embedded once more, in [Module Unguarded], with the lookup as
    a call that can raise. *)

From Stdlib Require Import ZArith NArith Ascii String DecimalString.
From stdpp Require Import base list gmap.

Local Open Scope Z_scope.

(** ** Python strings and bytes *)

(** A Python [str] is a sequence of Unicode code points, a [bytes] object a
    sequence of octets. *)
Abbreviation str := (list N).
Abbreviation bytes := (list N).

(** The code points of an ASCII literal of the script. *)
Definition lit (s : string) : str := map N_of_ascii (list_ascii_of_string s).

Notation "# s" := (lit s) (at level 1, format "# s").

(** Truth value of a [str] in a condition: the empty string is false. *)
Definition truthy (s : str) : bool :=
  match s with [] => false | _ :: _ => true end.

(** [str(n)] of an integer, as f-strings interpolate it. *)
Definition str_int (n : Z) : str := lit (NilZero.string_of_int (Z.to_int n)).

(** ** [bytes.decode('utf-8')] and [str.strip()] *)

Section Text.
Local Open Scope N_scope.

(** Outcome of the strict UTF-8 decoder: the text, or the slice
    [start, stop) of the input that is malformed and the reason. *)
Inductive decoded :=
  | Text (s : str)
  | Malformed (start stop : nat) (reason : str).

Definition emit (c : N) (r : decoded) : decoded :=
  match r with Text s => Text (c :: s) | Malformed _ _ _ => r end.

Definition is_continuation (b : N) : bool := (0x80 <=? b) && (b <? 0xC0).

Definition low (k : N) (b : N) : N := N.land b (N.ones k).

(** The decoder of the interpreter: one to four octets per code point, no
    overlong forms, no surrogates, nothing above U+10FFFF. *)
Fixpoint utf8_decode_at (pos : nat) (s : bytes) : decoded :=
  match s with
  | [] => Text []
  | ch :: s1 =>
    if ch <? 0x80 then emit ch (utf8_decode_at (S pos) s1)
    else if ch <? 0xC2 then Malformed pos (pos + 1) #"invalid start byte"
    else if ch <? 0xE0 then
      match s1 with
      | [] => Malformed pos (pos + 1) #"unexpected end of data"
      | ch2 :: s2 =>
        if negb (is_continuation ch2)
        then Malformed pos (pos + 1) #"invalid continuation byte"
        else emit (N.lor (N.shiftl (low 5 ch) 6) (low 6 ch2))
                  (utf8_decode_at (pos + 2) s2)
      end
    else if ch <? 0xF0 then
      match s1 with
      | [] => Malformed pos (pos + 1) #"unexpected end of data"
      | ch2 :: s2 =>
        if negb (is_continuation ch2)
           || (if ch2 <? 0xA0 then ch =? 0xE0 else ch =? 0xED)
        then Malformed pos (pos + 1) #"invalid continuation byte"
        else match s2 with
          | [] => Malformed pos (pos + 2) #"unexpected end of data"
          | ch3 :: s3 =>
            if negb (is_continuation ch3)
            then Malformed pos (pos + 2) #"invalid continuation byte"
            else emit (N.lor (N.shiftl (low 4 ch) 12)
                         (N.lor (N.shiftl (low 6 ch2) 6) (low 6 ch3)))
                      (utf8_decode_at (pos + 3) s3)
          end
      end
    else if ch <? 0xF5 then
      match s1 with
      | [] => Malformed pos (pos + 1) #"unexpected end of data"
      | ch2 :: s2 =>
        if negb (is_continuation ch2)
           || (if ch2 <? 0x90 then ch =? 0xF0 else ch =? 0xF4)
        then Malformed pos (pos + 1) #"invalid continuation byte"
        else match s2 with
          | [] => Malformed pos (pos + 2) #"unexpected end of data"
          | ch3 :: s3 =>
            if negb (is_continuation ch3)
            then Malformed pos (pos + 2) #"invalid continuation byte"
            else match s3 with
              | [] => Malformed pos (pos + 3) #"unexpected end of data"
              | ch4 :: s4 =>
                if negb (is_continuation ch4)
                then Malformed pos (pos + 3) #"invalid continuation byte"
                else emit (N.lor (N.shiftl (low 3 ch) 18)
                             (N.lor (N.shiftl (low 6 ch2) 12)
                                (N.lor (N.shiftl (low 6 ch3) 6) (low 6 ch4))))
                          (utf8_decode_at (pos + 4) s4)
              end
          end
      end
    else Malformed pos (pos + 1) #"invalid start byte"
  end.

Definition utf8_decode (s : bytes) : decoded := utf8_decode_at 0 s.

(** [str.isspace] on one code point: the white space of [str.strip()]. *)
Definition isspace (c : N) : bool :=
  (0x09 <=? c) && (c <=? 0x0D) || (0x1C <=? c) && (c <=? 0x20)
  || (c =? 0x85) || (c =? 0xA0) || (c =? 0x1680)
  || (0x2000 <=? c) && (c <=? 0x200A)
  || (c =? 0x2028) || (c =? 0x2029) || (c =? 0x202F) || (c =? 0x205F)
  || (c =? 0x3000).

Fixpoint lstrip (s : str) : str :=
  match s with
  | c :: s' => if isspace c then lstrip s' else s
  | [] => []
  end.

Definition rstrip (s : str) : str := rev (lstrip (rev s)).
Definition strip (s : str) : str := rstrip (lstrip s).

(** Two lower-case hexadecimal digits, as [%02x] prints an octet. *)
Definition hex_digit (d : N) : N := if d <? 10 then 48 + d else 87 + d.
Definition hex2 (b : N) : str := [hex_digit (b / 16); hex_digit (b mod 16)].

End Text.

(** ** Exceptions *)

(** The exception classes the script can meet.  [SerialException] is a
    subclass of [OSError]; [KeyboardInterrupt] and [SystemExit] are not
    subclasses of [Exception]. *)
Inductive exn :=
  | OSError (msg : str)
  | SerialException (msg : str)
  | UnicodeDecodeError (object : bytes) (start stop : nat) (reason : str)
  | OtherError (msg : str)
  | KeyboardInterrupt
  | SystemExit (code : Z).

Definition is_OSError (x : exn) : bool :=
  match x with OSError _ | SerialException _ => true | _ => false end.

Definition is_Exception (x : exn) : bool :=
  match x with KeyboardInterrupt | SystemExit _ => false | _ => true end.

Definition is_interrupt_or_serial (x : exn) : bool :=
  match x with KeyboardInterrupt | SerialException _ => true | _ => false end.

(** [str(e)], as [print(e)] and f-strings render an exception. *)
Definition str_exn (x : exn) : str :=
  match x with
  | OSError msg | SerialException msg | OtherError msg => msg
  | UnicodeDecodeError object start stop reason =>
    match object !! start with
    | Some b =>
      if decide (stop = S start)
      then #"'utf-8' codec can't decode byte 0x" ++ hex2 b ++ #" in position "
           ++ str_int (Z.of_nat start) ++ #": " ++ reason
      else #"'utf-8' codec can't decode bytes in position "
           ++ str_int (Z.of_nat start) ++ #"-" ++ str_int (Z.of_nat stop - 1)
           ++ #": " ++ reason
    | None =>
      #"'utf-8' codec can't decode bytes in position "
      ++ str_int (Z.of_nat start) ++ #"-" ++ str_int (Z.of_nat stop - 1)
      ++ #": " ++ reason
    end
  | KeyboardInterrupt => []
  | SystemExit code => str_int code
  end.

(** [data.decode('utf-8')]: the text or a raised [UnicodeDecodeError]. *)
Inductive outcome (A : Type) :=
  | Ok (a : A)
  | Raises (x : exn).
Arguments Ok {A} a.
Arguments Raises {A} x.

Definition decode (data : bytes) : outcome str :=
  match utf8_decode data with
  | Text s => Ok s
  | Malformed start stop reason =>
    Raises (UnicodeDecodeError data start stop reason)
  end.

(** ** The operating system: environment, state and effects *)

(** A mounted partition as [find_rpi_rp2_drive] sees it: the [device] field
    of an entry of [psutil.disk_partitions()] and the volume label
    [win32api.GetVolumeInformation(device)[0]] reports for it.  A [volume]
    is a partition whose lookup answers; [Unguarded.partition] below is a
    partition whose lookup may raise. *)
Record volume := Volume { device : str; label : str }.

(** A value of a registry key: name, data and type, as [winreg.EnumValue]
    returns them.  A key is the list of its values when it is opened. *)
Record regvalue := RegValue { value_name : str; value_data : str; value_type : Z }.

(** What the operating system answers.  Calls whose answer changes over a
    run take the number of earlier calls of the same kind. *)
Record Env := {
  sys_argv : list str;
  path_exists : str -> bool;                  (* os.path.exists *)
  path_getsize : str -> outcome Z;            (* os.path.getsize *)
  copy_error : str -> str -> option exn;      (* shutil.copy: None = copied *)
  disk_partitions : nat -> list volume;       (* psutil.disk_partitions *)
  Serial_error : nat -> str -> Z -> option exn; (* serial.Serial: None = opened *)
  registry : outcome (list regvalue);         (* winreg.OpenKey on SERIALCOMM *)
  readline : nat -> outcome bytes             (* ser.readline *)
}.

(** The effects of the script that the outside can observe: a printed
    line, a sleep, a call of [serial.Serial], of [psutil.disk_partitions]
    and of [shutil.copy] (logged when it is made, whatever its outcome). *)
Inductive event :=
  | EPrint (line : str)
  | ESleep (seconds : Z)
  | ESerial (port : str) (baudrate : Z)
  | EPartitions
  | ECopy (src dst : str).

Record State := {
  polls : nat;                      (* calls of psutil.disk_partitions so far *)
  opens : nat;                      (* calls of serial.Serial so far *)
  reads : nat;                      (* calls of ser.readline so far *)
  shelf : option (gmap str str);    (* the shelve database, None: no file *)
  out : list event                  (* effects so far, oldest first *)
}.

Definition log (evs : list event) (s : State) : State :=
  {| polls := polls s; opens := opens s; reads := reads s;
     shelf := shelf s; out := out s ++ evs |}.

Definition polled (s : State) : State :=
  {| polls := S (polls s); opens := opens s; reads := reads s;
     shelf := shelf s; out := out s |}.

Definition opened (s : State) : State :=
  {| polls := polls s; opens := S (opens s); reads := reads s;
     shelf := shelf s; out := out s |}.

Definition read (s : State) : State :=
  {| polls := polls s; opens := opens s; reads := S (reads s);
     shelf := shelf s; out := out s |}.

Definition stored (key val : str) (s : State) : State :=
  {| polls := polls s; opens := opens s; reads := reads s;
     shelf := Some (<[key := val]> (default ∅ (shelf s))); out := out s |}.

(** ** The monad *)

(** A computation returns, raises, or is still looping when the fuel of a
    [while True] loop is used up. *)
Inductive res (A : Type) :=
  | Ret (a : A)
  | Raise (x : exn)
  | Looping.
Arguments Ret {A} a.
Arguments Raise {A} x.
Arguments Looping {A}.

Definition M (A : Type) : Type := Env -> State -> res A * State.

Definition ret {A} (a : A) : M A := fun _ s => (Ret a, s).

Definition bind {A B} (c : M A) (k : A -> M B) : M B :=
  fun e s =>
    match c e s with
    | (Ret a, s') => k a e s'
    | (Raise x, s') => (Raise x, s')
    | (Looping, s') => (Looping, s')
    end.

Definition raise {A} (x : exn) : M A := fun _ s => (Raise x, s).

Declare Scope monad_scope.
Delimit Scope monad_scope with monad.
Notation "x <- c ;; k" := (bind c (fun x => k))
  (at level 100, c at next level, k at level 200, right associativity) : monad_scope.
Notation "c ;; k" := (bind c (fun _ => k))
  (at level 100, k at level 200, right associativity) : monad_scope.
Local Open Scope monad_scope.

(** [try: body except ...: handler]: [clauses x] is the handler of the
    first [except] clause that matches [x], if one does.  An exception
    raised by a handler is not caught by its own [try]. *)
Definition try_except {A} (body : M A) (clauses : exn -> option (M A)) : M A :=
  fun e s =>
    match body e s with
    | (Raise x, s') =>
      match clauses x with
      | Some handler => handler e s'
      | None => (Raise x, s')
      end
    | r => r
    end.

Definition of_outcome {A} (o : outcome A) : M A :=
  match o with Ok a => ret a | Raises x => raise x end.

(** *** Library calls *)

Definition print (line : str) : M unit := fun _ s => (Ret tt, log [EPrint line] s).

Definition time_sleep (seconds : Z) : M unit :=
  fun _ s => (Ret tt, log [ESleep seconds] s).

Definition sys_exit {A} (code : Z) : M A := raise (SystemExit code).

(** [serial.Serial(port, baudrate, timeout=1)]; the port object itself
    carries nothing the script uses but [readline]. *)
Definition serial_Serial (port : str) (baudrate : Z) : M unit :=
  fun e s =>
    let s' := opened (log [ESerial port baudrate] s) in
    match Serial_error e (opens s) port baudrate with
    | None => (Ret tt, s')
    | Some x => (Raise x, s')
    end.

Definition ser_readline : M bytes :=
  fun e s => of_outcome (readline e (reads s)) e (read s).

Definition psutil_disk_partitions : M (list volume) :=
  fun e s => (Ret (disk_partitions e (polls s)), polled (log [EPartitions] s)).

Definition winreg_OpenKey : M (list regvalue) := fun e s => of_outcome (registry e) e s.

(** [winreg.EnumValue(key, i)] raises [OSError] past the last value. *)
Definition winreg_EnumValue (key : list regvalue) (i : nat) : M regvalue :=
  match key !! i with
  | Some v => ret v
  | None => raise (OSError #"[WinError 259] No more data is available")
  end.

Definition os_path_exists (path : str) : M bool := fun e s => (Ret (path_exists e path), s).

Definition os_path_getsize (path : str) : M Z := fun e s => of_outcome (path_getsize e path) e s.

Definition shutil_copy (src dst : str) : M unit :=
  fun e s =>
    match copy_error e src dst with
    | None => (Ret tt, log [ECopy src dst] s)
    | Some x => (Raise x, log [ECopy src dst] s)
    end.

Definition get_argv : M (list str) := fun e s => (Ret (sys_argv e), s).

(** [with shelve.open(name) as db: db[key] = val] *)
Definition shelve_set (key val : str) : M unit := fun _ s => (Ret tt, stored key val s).

(** [with shelve.open(name, flag='r') as db: db.get(key, None)]; opening
    raises [dbm.error] when there is no database: for a file that is there
    but is no database its type cannot be determined, and a file that is
    not there cannot be opened for reading. *)
Definition shelve_get (name key : str) : M (option str) :=
  fun e s =>
    match shelf s with
    | Some db => (Ret (db !! key), s)
    | None =>
      (Raise (OtherError
                (if path_exists e name
                 then #"db type could not be determined"
                 else #"db file doesn't exist; use 'c' or 'n' flag to create a new db")),
       s)
    end.

Definition looping {A} : M A := fun _ s => (Looping, s).

(** How one round of a loop body ends: [return a], fall through to the
    next round, or [break]. *)
Inductive flow (A : Type) :=
  | Return (a : A)
  | Continue
  | Break.
Arguments Return {A} a.
Arguments Continue {A}.
Arguments Break {A}.

(** [range(a, b)] *)
Definition range (a b : Z) : list Z := seqZ a (b - a).

(** ** The script *)

Definition serial_baudrate : option Z := Some 115200.
Definition partitionName : str := #"RPI-RP2".
Definition initComPort : Z := 1.
Definition maxComPorts : Z := 15.
Definition comAutoScan : bool := true.
Definition storage_name : str := #"flash_partition_shelve".
Definition storage_key : str := #"comPort".

(** The [for partition in partitions] loop of [find_rpi_rp2_drive]. *)
Fixpoint find_loop (partitions : list volume) : M (option str) :=
  match partitions with
  | [] => ret None
  | partition :: rest =>
    let volume_label := label partition in
    if decide (partitionName = volume_label)
    then print (#"The '" ++ partitionName ++ #"' drive is mounted at: "
                ++ device partition) ;;
         ret (Some (device partition))
    else find_loop rest
  end.

Definition find_rpi_rp2_drive : M (option str) :=
  partitions <- psutil_disk_partitions ;;
  find_loop partitions.

(** The function returns the list [[comPort, partition]], or [None] by
    falling off its end; [if partition:] is false for [None] and for the
    empty string. *)
Definition get_com_and_partion (comPort : str) : M (option (str * str)) :=
  try_except
    (print (#"Opening serial connection on " ++ comPort ++ #" ...") ;;
     serial_Serial comPort 1200)
    (fun _ => Some (time_sleep 3)) ;;
  partition <- find_rpi_rp2_drive ;;
  match partition with
  | Some p => if truthy p then ret (Some (comPort, p)) else ret None
  | None => ret None
  end.

(** The [while True] loop over the values of the registry key.  Its result
    is [Some data] when the function returns [data] from inside the loop
    and [None] when the loop is left by [break]. *)
Fixpoint enum_loop (fuel : nat) (key : list regvalue) (i : nat)
  : M (option (str * str)) :=
  match fuel with
  | O => looping
  | S fuel' =>
    step <- try_except
      (v <- winreg_EnumValue key i ;;
       data <- get_com_and_partion (value_data v) ;;
       match data with
       | Some d => ret (Return d)
       | None => ret Continue
       end)
      (fun x => if is_OSError x then Some (ret Break) else None) ;;
    match step with
    | Return d => ret (Some d)
    | Continue => enum_loop fuel' key (S i)
    | Break => ret None
    end
  end.

(** The [for port in range(initComPort, maxComPorts + 1)] loop. *)
Fixpoint scan_loop (ports : list Z) : M (option (str * str)) :=
  match ports with
  | [] => ret None
  | port :: rest =>
    data <- get_com_and_partion (#"COM" ++ str_int port) ;;
    match data with
    | Some d => shelve_set storage_key (fst d) ;; ret (Some d)
    | None => scan_loop rest
    end
  end.

(** A key with n values ends the enumeration loop within n + 1 rounds, so
    that is the fuel the loop gets here ([enum_loop_eq] below: the loop
    never uses it up).  The bare [except:] around the registry branch
    catches whatever is raised in it and goes on with the range scan. *)
Definition wait_for_device_reconnect : M (option (str * str)) :=
  print #"Waiting for Raspberry Pi Pico to reconnect..." ;;
  found <- (if comAutoScan
            then try_except
                   (key <- winreg_OpenKey ;;
                    enum_loop (S (length key)) key 0)
                   (fun _ => Some (ret None))
            else ret None) ;;
  match found with
  | Some data => ret (Some data)
  | None => scan_loop (range initComPort (maxComPorts + 1))
  end.

Definition copyFile (partition : str) : M unit :=
  argv <- get_argv ;;
  match argv with
  | _ :: file_path :: _ =>
    found <- os_path_exists file_path ;;
    if found : bool
    then try_except
           (file_size <- os_path_getsize file_path ;;
            print (#"Copying file " ++ file_path ++ #" to " ++ partition
                   ++ #". File size: " ++ str_int file_size ++ #" bytes") ;;
            shutil_copy file_path partition ;;
            print #"File copied successfully." ;;
            print (#"Wait connecting to " ++ partition ++ #" (" ++ partitionName
                   ++ #") ...") ;;
            time_sleep 5)
           (fun x => if is_Exception x
                     then Some (print (#"Error copying file: " ++ str_exn x))
                     else None)
    else print (#"File '" ++ file_path ++ #"' not found.")
  | _ => ret tt
  end.

(** The [while True] loop of [read_com]; it only ends by an exception. *)
Fixpoint read_loop (fuel : nat) : M unit :=
  match fuel with
  | O => looping
  | S fuel' =>
    try_except
      (data <- ser_readline ;;
       match data with
       | [] => ret tt
       | _ :: _ => text <- of_outcome (decode data) ;; print (strip text)
       end)
      (fun x => if is_interrupt_or_serial x then Some (sys_exit 0)
                else if is_Exception x then Some (print (str_exn x))
                else None) ;;
    read_loop fuel'
  end.

Definition read_com (fuel : nat) (comPort : str) : M unit :=
  match serial_baudrate with
  | None => sys_exit 0
  | Some baudrate =>
    try_except
      (print (#"Opening serial connection on " ++ comPort ++ #" ...") ;;
       serial_Serial comPort baudrate ;;
       read_loop fuel)
      (fun x => if is_Exception x then Some (print (str_exn x)) else None)
  end.

(** [fuel] bounds the rounds of each monitoring loop. *)
Definition main (fuel : nat) : M unit :=
  stored_before <- os_path_exists storage_name ;;
  comPort <- (if stored_before : bool
              then shelve_get storage_name storage_key
              else ret None) ;;
  partition <- find_rpi_rp2_drive ;;
  match partition with
  | Some p =>
    if truthy p
    then copyFile p ;;
         match comPort with
         | Some port => if truthy port then read_com fuel port else ret tt
         | None => ret tt
         end
    else print #"No partitions found."
  | None => print #"No partitions found."
  end ;;
  data <- match comPort with
          | Some port => if truthy port then get_com_and_partion port else ret None
          | None => ret None
          end ;;
  data <- match data with
          | Some d => ret (Some d)
          | None => wait_for_device_reconnect
          end ;;
  match data with
  | Some (comPort, partition) =>
    copyFile partition ;;
    print #"Connecting to Raspberry Pi Pico..." ;;
    read_com fuel comPort
  | None => ret tt
  end ;;
  print #"Could not establish connection to the Raspberry Pi Pico.".

(** ** The volume matcher and the probe when a label lookup can fail *)

Module Unguarded.

(** An entry of [psutil.disk_partitions()]: its [device] field and what
    [win32api.GetVolumeInformation(device)[0]] does for it at that moment,
    answer with the volume label or raise. *)
Record partition := Partition { device : str; GetVolumeInformation : outcome str }.

Section Partitions.

(** The k-th answer of [psutil.disk_partitions()]. *)
Variable disk_partitions : nat -> list partition.

(** The [for partition in partitions] loop of [find_rpi_rp2_drive]; the
    label of a partition is looked up when the loop reaches it. *)
Fixpoint find_loop (partitions : list partition) : M (option str) :=
  match partitions with
  | [] => ret None
  | partition :: rest =>
    volume_label <- of_outcome (GetVolumeInformation partition) ;;
    if decide (partitionName = volume_label)
    then print (#"The '" ++ partitionName ++ #"' drive is mounted at: "
                ++ device partition) ;;
         ret (Some (device partition))
    else find_loop rest
  end.

Definition find_rpi_rp2_drive : M (option str) :=
  partitions <- (fun _ s => (Ret (disk_partitions (polls s)),
                             polled (log [EPartitions] s))) ;;
  find_loop partitions.

Definition get_com_and_partion (comPort : str) : M (option (str * str)) :=
  try_except
    (print (#"Opening serial connection on " ++ comPort ++ #" ...") ;;
     serial_Serial comPort 1200)
    (fun _ => Some (time_sleep 3)) ;;
  partition <- find_rpi_rp2_drive ;;
  match partition with
  | Some p => if truthy p then ret (Some (comPort, p)) else ret None
  | None => ret None
  end.

End Partitions.

(** The lookup answers, with a label that is not the target label. *)
Definition other (p : partition) : Prop :=
  exists volume_label,
    GetVolumeInformation p = Ok volume_label /\ volume_label <> partitionName.

(** A volume whose label lookup answers, as a partition. *)
Definition answering (v : volume) : partition :=
  match v with Volume d l => Partition d (Ok l) end.

End Unguarded.

(** ** Vocabulary of the specification *)

(** No volume of the list carries the target label. *)
Definition absent (vols : list volume) : Prop :=
  Forall (fun v => label v <> partitionName) vols.

(** The first volume of the list that carries the target label has device
    [d]. *)
Definition mounted_at (vols : list volume) (d : str) : Prop :=
  exists pre v post,
    vols = pre ++ v :: post /\ absent pre /\ label v = partitionName /\ device v = d.

(** The value [find_loop] computes, without its printing. *)
Fixpoint drive_of (vols : list volume) : option str :=
  match vols with
  | [] => None
  | v :: rest =>
    if decide (partitionName = label v) then Some (device v) else drive_of rest
  end.

(** What a probe makes of the volumes it sees: the device it pairs with its
    port, if any. *)
Definition hit (vols : list volume) : option str :=
  match drive_of vols with
  | Some d => if truthy d then Some d else None
  | None => None
  end.

Definition opening_line (port : str) : str :=
  #"Opening serial connection on " ++ port ++ #" ...".

Definition mounted_line (d : str) : str :=
  #"The '" ++ partitionName ++ #"' drive is mounted at: " ++ d.

Definition drive_events (vols : list volume) : list event :=
  match drive_of vols with
  | Some d => [EPrint (mounted_line d)]
  | None => []
  end.

(** The sleep of a probe: there is one exactly when the open raised. *)
Definition settle_events (e : Env) (s : State) (port : str) : list event :=
  match Serial_error e (opens s) port 1200 with
  | Some _ => [ESleep 3]
  | None => []
  end.

(** The effects of one call of [get_com_and_partion], in order. *)
Definition probe_events (port : str) (e : Env) (s : State) : list event :=
  [EPrint (opening_line port); ESerial port 1200]
  ++ settle_events e s port
  ++ [EPartitions]
  ++ drive_events (disk_partitions e (polls s)).

Definition after_probe (port : str) (e : Env) (s : State) : State :=
  {| polls := S (polls s); opens := S (opens s); reads := reads s;
     shelf := shelf s; out := out s ++ probe_events port e s |}.

(** One pass over a list of candidate ports: probe each in turn and stop at
    the first probe that sees the bootloader volume. *)
Fixpoint pass (e : Env) (ports : list str) (s : State)
  : option (str * str) * State :=
  match ports with
  | [] => (None, s)
  | port :: rest =>
    match hit (disk_partitions e (polls s)) with
    | Some d => (Some (port, d), after_probe port e s)
    | None => pass e rest (after_probe port e s)
    end
  end.

Definition com (port : Z) : str := #"COM" ++ str_int port.

(** The ports the registry lists; none when the key cannot be opened. *)
Definition registry_ports (e : Env) : list str :=
  match registry e with
  | Ok key => map value_data key
  | Raises _ => []
  end.

Definition range_ports : list str := map com (range initComPort (maxComPorts + 1)).

(** The candidate ports of one call of [wait_for_device_reconnect]. *)
Definition candidates (e : Env) : list str := registry_ports e ++ range_ports.

(** The ports of the [serial.Serial] calls of a trace, in order. *)
Definition opened_ports (evs : list event) : list (str * Z) :=
  omap (fun ev => match ev with ESerial p b => Some (p, b) | _ => None end) evs.

(** The lines printed by a trace, in order. *)
Definition printed (evs : list event) : list str :=
  omap (fun ev => match ev with EPrint l => Some l | _ => None end) evs.

(** The same environment with another answer of the registry. *)
Definition with_registry (r : outcome (list regvalue)) (e : Env) : Env :=
  {| sys_argv := sys_argv e; path_exists := path_exists e;
     path_getsize := path_getsize e; copy_error := copy_error e;
     disk_partitions := disk_partitions e; Serial_error := Serial_error e;
     registry := r; readline := readline e |}.

(** What the monitor prints for one chunk read from the port, in the words
    of the specification: nothing for an empty chunk, else the chunk decoded
    and trimmed, or the decoding error. *)
Definition line_output (data : bytes) : list event :=
  match data with
  | [] => []
  | _ :: _ =>
    match decode data with
    | Ok text => [EPrint (strip text)]
    | Raises x => [EPrint (str_exn x)]
    end
  end.

(** A computation only appends to the trace of effects. *)
Definition extends {A} (c : M A) : Prop :=
  forall e s, exists evs, out (c e s).2 = out s ++ evs.

(** The effects [mid] are the first ones the computation adds to the
    trace. *)
Definition starts {A} (c : M A) (e : Env) (s : State) (mid : list event) : Prop :=
  exists post, out (c e s).2 = out s ++ mid ++ post.

(** The effects [mid] occur, one right after the other, among those that
    the computation adds to the trace. *)
Definition reaches {A} (c : M A) (e : Env) (s : State) (mid : list event) : Prop :=
  exists pre post, out (c e s).2 = out s ++ pre ++ mid ++ post.


(** ** Sample environments *)

(** A freshly started process: nothing called yet, no shelve file. *)
Definition boot : State :=
  {| polls := 0; opens := 0; reads := 0; shelf := None; out := [] |}.

Definition pico : volume := Volume #"E:\" #"RPI-RP2".
Definition disk_c : volume := Volume #"C:\" #"Windows".
Definition disk_d : volume := Volume #"D:\" #"rpi-rp2".

(** Nothing is plugged in and nothing is on disk: no port opens, the
    registry key is missing, no bootloader volume, no image file. *)
Definition offline : Env := {|
  sys_argv := [ #"flash.py"; #"firmware.uf2"];
  path_exists := fun _ => false;
  path_getsize := fun _ => Raises (OSError #"[WinError 2] The system cannot find the file specified");
  copy_error := fun _ _ => None;
  disk_partitions := fun _ => [disk_c];
  Serial_error := fun _ port _ => Some (SerialException (#"could not open port " ++ port));
  registry := Raises (OSError #"[WinError 2] The system cannot find the file specified");
  readline := fun _ => Raises KeyboardInterrupt
|}.

Definition with_partitions (f : nat -> list volume) (e : Env) : Env :=
  {| sys_argv := sys_argv e; path_exists := path_exists e;
     path_getsize := path_getsize e; copy_error := copy_error e;
     disk_partitions := f; Serial_error := Serial_error e;
     registry := registry e; readline := readline e |}.

Definition with_Serial_error (f : nat -> str -> Z -> option exn) (e : Env) : Env :=
  {| sys_argv := sys_argv e; path_exists := path_exists e;
     path_getsize := path_getsize e; copy_error := copy_error e;
     disk_partitions := disk_partitions e; Serial_error := f;
     registry := registry e; readline := readline e |}.

Definition with_readline (f : nat -> outcome bytes) (e : Env) : Env :=
  {| sys_argv := sys_argv e; path_exists := path_exists e;
     path_getsize := path_getsize e; copy_error := copy_error e;
     disk_partitions := disk_partitions e; Serial_error := Serial_error e;
     registry := registry e; readline := f |}.

Definition with_argv (argv : list str) (e : Env) : Env :=
  {| sys_argv := argv; path_exists := path_exists e;
     path_getsize := path_getsize e; copy_error := copy_error e;
     disk_partitions := disk_partitions e; Serial_error := Serial_error e;
     registry := registry e; readline := readline e |}.

(** The image file exists and has [size] bytes; copying it fails with
    [err], if given. *)
Definition with_image (size : Z) (err : option exn) (e : Env) : Env :=
  {| sys_argv := sys_argv e; path_exists := fun _ => true;
     path_getsize := fun _ => Ok size; copy_error := fun _ _ => err;
     disk_partitions := disk_partitions e; Serial_error := Serial_error e;
     registry := registry e; readline := readline e |}.

(** The bootloader volume shows up at the k-th volume query, and stays. *)
Definition appears_at (k : nat) : nat -> list volume :=
  fun n => if decide (k <= n)%nat then [disk_c; pico] else [disk_c].

(** The registry lists COM3 and COM5. *)
Definition two_ports : outcome (list regvalue) :=
  Ok [RegValue #"\Device\Serial0" #"COM3" 1; RegValue #"\Device\USBSER000" #"COM5" 1].

(** Only the shelve file exists on disk. *)
Definition with_store_file (e : Env) : Env :=
  {| sys_argv := sys_argv e;
     path_exists := fun path => bool_decide (path = storage_name);
     path_getsize := path_getsize e; copy_error := copy_error e;
     disk_partitions := disk_partitions e; Serial_error := Serial_error e;
     registry := registry e; readline := readline e |}.


(** ** Vocabulary for the further properties *)

(** The effects a computation added to the trace, given the states before
    and after it. *)
Definition added (s s' : State) : list event := drop (length (out s)) (out s').

(** The seconds slept in a trace. *)
Definition slept (evs : list event) : Z :=
  foldr (fun ev total => match ev with ESleep n => n + total | _ => total end) 0 evs.

(** The calls of [shutil.copy] in a trace. *)
Definition copies (evs : list event) : list (str * str) :=
  omap (fun ev => match ev with ECopy src dst => Some (src, dst) | _ => None end) evs.

(** A new process, started after the one that ended in state [s]: only the
    shelve database is carried over. *)
Definition restart (s : State) : State :=
  {| polls := 0; opens := 0; reads := 0; shelf := shelf s; out := [] |}.

(** A read that does not end the monitor: a chunk, or an error that is
    neither an interrupt nor a serial error but is an [Exception]. *)
Definition goes_on (r : outcome bytes) : bool :=
  match r with
  | Ok _ => true
  | Raises x => negb (is_interrupt_or_serial x) && is_Exception x
  end.

(** What the monitor prints for one read that does not end it. *)
Definition read_output (r : outcome bytes) : list event :=
  match r with
  | Ok data => line_output data
  | Raises x => [EPrint (str_exn x)]
  end.

(** The image is on disk with [size] bytes and copies without error. *)
Definition flashable (size : Z) : Env := with_image size None offline.

(** Only the file [name] is on disk; it has [size] bytes and copies without
    error. *)
Definition with_only_file (name : str) (size : Z) (e : Env) : Env :=
  {| sys_argv := sys_argv e;
     path_exists := fun path => bool_decide (path = name);
     path_getsize := fun _ => Ok size; copy_error := fun _ _ => None;
     disk_partitions := disk_partitions e; Serial_error := Serial_error e;
     registry := registry e; readline := readline e |}.

(** When the computation returns, the last effect in the trace is [ev]. *)
Definition returns_after {A} (c : M A) (ev : event) : Prop :=
  forall e s a, (c e s).1 = Ret a -> last (out (c e s).2) = Some ev.

(** ** Sanity checks of the library model *)

Example str_int_15 : str_int 15 = #"15".
Proof. reflexivity. Qed.

Example decode_boot_ok : utf8_decode (#"boot ok" ++ [10%N]) = Text (#"boot ok" ++ [10%N]).
Proof. reflexivity. Qed.

Example decode_euro : utf8_decode [0xE2; 0x82; 0xAC]%N = Text [0x20AC%N].
Proof. reflexivity. Qed.

Example decode_surrogate :
  utf8_decode [0xED; 0xA0; 0x80]%N = Malformed 0 1 #"invalid continuation byte".
Proof. reflexivity. Qed.

Example strip_boot_ok : strip (#"  boot ok" ++ [13; 10]%N) = #"boot ok".
Proof. reflexivity. Qed.

Example decode_ff :
  match decode [0xFF; 10]%N with
  | Raises x => str_exn x
  | Ok _ => []
  end = #"'utf-8' codec can't decode byte 0xff in position 0: invalid start byte".
Proof. reflexivity. Qed.

(** ** The volume matcher *)

Lemma absent_drive_of vols : absent vols <-> drive_of vols = None.
Proof.
  unfold absent. induction vols as [|v vols IH]; simpl.
  - split; [done | constructor].
  - destruct (decide (partitionName = label v)) as [E|E].
    + split; [|done]. intros H. inversion H; subst. congruence.
    + rewrite <- IH. split.
      * intros H. by inversion H.
      * intros H. constructor; [congruence | done].
Qed.

Lemma mounted_drive_of vols d : mounted_at vols d <-> drive_of vols = Some d.
Proof.
  split.
  - intros (pre & v & post & -> & Hpre & Hv & <-).
    induction Hpre as [|u pre Hu _ IH]; simpl.
    + rewrite decide_True; [done | congruence].
    + rewrite decide_False; [done | congruence].
  - induction vols as [|v vols IH]; simpl; [done|].
    destruct (decide (partitionName = label v)) as [E|E].
    + intros [= <-]. exists [], v, vols. repeat split; [constructor | done].
    + intros H. destruct (IH H) as (pre & w & post & -> & Hpre & Hw & Hd).
      exists (v :: pre), w, post. repeat split; try done.
      constructor; [congruence | done].
Qed.

Lemma log_nil s : log [] s = s.
Proof. destruct s. unfold log. simpl. by rewrite app_nil_r. Qed.

Lemma log_log evs1 evs2 s : log evs2 (log evs1 s) = log (evs1 ++ evs2) s.
Proof. unfold log. simpl. by rewrite <- app_assoc. Qed.

Lemma find_loop_eq vols e s :
  find_loop vols e s = (Ret (drive_of vols), log (drive_events vols) s).
Proof.
  unfold drive_events. induction vols as [|v vols IH]; simpl.
  - by rewrite log_nil.
  - by destruct (decide (partitionName = label v)).
Qed.

Lemma get_com_eq port e s :
  get_com_and_partion port e s
  = (Ret (pair port <$> hit (disk_partitions e (polls s))), after_probe port e s).
Proof.
  unfold get_com_and_partion, find_rpi_rp2_drive, bind, try_except, print,
    serial_Serial, psutil_disk_partitions, time_sleep, after_probe,
    probe_events, settle_events, hit.
  simpl. destruct (Serial_error e (opens s) port 1200); simpl;
    rewrite find_loop_eq; simpl;
    (destruct (drive_of _) as [d|]; [destruct (truthy d)|]); simpl;
    unfold ret, log; simpl; by rewrite <- ?app_assoc.
Qed.

(** ** The loops of [wait_for_device_reconnect] are passes *)

Lemma scan_loop_eq ports e s :
  scan_loop ports e s
  = match pass e (map com ports) s with
    | (Some d, s') => (Ret (Some d), stored storage_key d.1 s')
    | (None, s') => (Ret None, s')
    end.
Proof.
  revert s. induction ports as [|port ports IH]; intros s; simpl; [done|].
  unfold bind at 1. fold (com port). rewrite get_com_eq.
  destruct (hit _) as [d|]; simpl; [done | apply IH].
Qed.

Lemma enum_loop_eq fuel key i e s :
  (length key - i < fuel)%nat ->
  enum_loop fuel key i e s
  = match pass e (map value_data (drop i key)) s with
    | (r, s') => (Ret r, s')
    end.
Proof.
  revert i s. induction fuel as [|fuel IH]; intros i s Hfuel; [lia|].
  simpl. unfold bind at 1, try_except, winreg_EnumValue.
  destruct (key !! i) as [v|] eqn:Hi.
  - rewrite (drop_S _ _ _ Hi). simpl.
    unfold bind at 1, ret at 1. unfold bind at 1. rewrite get_com_eq.
    destruct (hit _) as [d|]; simpl; [done|].
    apply IH. apply lookup_lt_Some in Hi. lia.
  - apply lookup_ge_None in Hi. rewrite drop_ge by lia. done.
Qed.

Lemma wait_eq e s :
  wait_for_device_reconnect e s
  = match pass e (registry_ports e)
            (log [EPrint #"Waiting for Raspberry Pi Pico to reconnect..."] s) with
    | (Some d, s') => (Ret (Some d), s')
    | (None, s') =>
      match pass e range_ports s' with
      | (Some d, s'') => (Ret (Some d), stored storage_key d.1 s'')
      | (None, s'') => (Ret None, s'')
      end
    end.
Proof.
  unfold wait_for_device_reconnect, registry_ports, range_ports.
  generalize (range initComPort (maxComPorts + 1)). intros ports.
  unfold bind, try_except, print, winreg_OpenKey, comAutoScan.
  destruct (registry e) as [key|x]; cbn [of_outcome]; unfold ret, raise.
  - rewrite enum_loop_eq by lia. rewrite drop_0.
    destruct (pass e (map value_data key) _) as [[d|] s'];
      [done | apply scan_loop_eq].
  - apply scan_loop_eq.
Qed.

(** ** Properties of a pass *)

Lemma opened_probe port e s : opened_ports (probe_events port e s) = [(port, 1200)].
Proof.
  unfold probe_events, settle_events, drive_events, opened_ports.
  destruct (Serial_error _ _ _ _), (drive_of _); done.
Qed.

Lemma opened_ports_app evs1 evs2 :
  opened_ports (evs1 ++ evs2) = opened_ports evs1 ++ opened_ports evs2.
Proof. apply omap_app. Qed.

Lemma pass_app e l1 l2 s :
  pass e (l1 ++ l2) s
  = match pass e l1 s with
    | (Some d, s') => (Some d, s')
    | (None, s') => pass e l2 s'
    end.
Proof.
  revert s. induction l1 as [|p l1 IH]; intros s; simpl; [done|].
  destruct (hit _); [done | apply IH].
Qed.

Lemma pass_shelf e ports s : shelf (pass e ports s).2 = shelf s.
Proof.
  revert s. induction ports as [|p ports IH]; intros s; simpl; [done|].
  destruct (hit _); [done | by rewrite IH].
Qed.

Lemma pass_miss e ports s :
  (forall j, (j < length ports)%nat -> hit (disk_partitions e (polls s + j)) = None) ->
  exists s' evs,
    pass e ports s = (None, s') /\ polls s' = (polls s + length ports)%nat
    /\ out s' = out s ++ evs
    /\ opened_ports evs = map (fun p => (p, 1200)) ports.
Proof.
  revert s. induction ports as [|p ports IH]; intros s H; simpl.
  - exists s, []. by rewrite Nat.add_0_r, app_nil_r.
  - pose proof (H 0%nat ltac:(simpl; lia)) as H0.
    rewrite Nat.add_0_r in H0. rewrite H0.
    destruct (IH (after_probe p e s)) as (s' & evs & -> & Hp & Ho & Hs).
    { intros j Hj. simpl. rewrite <- Nat.add_succ_r. apply H. simpl. lia. }
    simpl in Hp, Ho.
    exists s', (probe_events p e s ++ evs). split; [done|].
    split; [simpl; lia|]. split; [by rewrite Ho, <- app_assoc|].
    by rewrite opened_ports_app, opened_probe, Hs.
Qed.

Lemma pass_hit e ports s n p d :
  ports !! n = Some p ->
  (forall j, (j < n)%nat -> hit (disk_partitions e (polls s + j)) = None) ->
  hit (disk_partitions e (polls s + n)) = Some d ->
  exists s' evs,
    pass e ports s = (Some (p, d), s') /\ polls s' = (polls s + S n)%nat
    /\ out s' = out s ++ evs
    /\ opened_ports evs = map (fun p => (p, 1200)) (take (S n) ports).
Proof.
  revert s n. induction ports as [|q ports IH]; intros s n Hn Hmiss Hhit; [done|].
  destruct n as [|n]; simpl in *.
  - injection Hn as ->. rewrite Nat.add_0_r in Hhit. rewrite Hhit.
    exists (after_probe p e s), (probe_events p e s). split; [done|].
    split; [simpl; lia|]. split; [done|]. apply opened_probe.
  - pose proof (Hmiss 0%nat ltac:(lia)) as H0.
    rewrite Nat.add_0_r in H0. rewrite H0.
    destruct (IH (after_probe q e s) n Hn) as (s' & evs & -> & Hp & Ho & Hs).
    { intros j Hj. simpl. rewrite <- Nat.add_succ_r. apply Hmiss. lia. }
    { simpl. by rewrite <- Nat.add_succ_r. }
    simpl in Hp, Ho.
    exists s', (probe_events q e s ++ evs). split; [done|].
    split; [lia|]. split; [by rewrite Ho, <- app_assoc|].
    by rewrite opened_ports_app, opened_probe, Hs.
Qed.

Lemma pass_inv e ports s :
  match (pass e ports s).1 with
  | Some (p, d) =>
    exists n, ports !! n = Some p
      /\ hit (disk_partitions e (polls s + n)) = Some d
      /\ forall j, (j < n)%nat -> hit (disk_partitions e (polls s + j)) = None
  | None =>
    polls (pass e ports s).2 = (polls s + length ports)%nat
    /\ forall j, (j < length ports)%nat ->
         hit (disk_partitions e (polls s + j)) = None
  end.
Proof.
  revert s. induction ports as [|q ports IH]; intros s; simpl.
  - split; [lia | intros; lia].
  - destruct (hit (disk_partitions e (polls s))) as [d|] eqn:Hq; simpl.
    + exists 0%nat. rewrite Nat.add_0_r. repeat split; [done | intros; lia].
    + specialize (IH (after_probe q e s)).
      destruct (pass e ports (after_probe q e s)).1 as [[p d]|]; simpl in IH.
      * destruct IH as (n & Hn & Hd & Hm). exists (S n).
        rewrite <- Nat.add_succ_r in Hd. repeat split; [done | done |].
        intros [|j] Hj; [by rewrite Nat.add_0_r|].
        rewrite Nat.add_succ_r. apply Hm. lia.
      * destruct IH as [Hp Hm]. split; [lia|].
        intros [|j] Hj; [by rewrite Nat.add_0_r|].
        rewrite Nat.add_succ_r. apply Hm. lia.
Qed.

Lemma hit_mounted vols d : hit vols = Some d <-> mounted_at vols d /\ d <> [].
Proof.
  unfold hit. rewrite mounted_drive_of. destruct (drive_of vols) as [d'|].
  - destruct d' as [|c d']; simpl; split; try done.
    + by intros [[= <-] ?].
    + by intros [= <-].
    + by intros [[= <-] _].
  - split; [done | by intros [? _]].
Qed.

Lemma absent_hit vols : absent vols -> hit vols = None.
Proof. unfold hit. intros H. apply absent_drive_of in H. by rewrite H. Qed.

Lemma mounted_elem vols d :
  mounted_at vols d -> exists v, v ∈ vols /\ label v = partitionName /\ device v = d.
Proof.
  intros (pre & v & post & -> & _ & Hv & Hd). exists v. split; [|done].
  apply elem_of_app. right. apply elem_of_cons. by left.
Qed.

(** The reconnect wait is one pass over its candidates; only a hit in the
    range scan touches the shelve database. *)
Lemma wait_pass e s :
  let r := pass e (candidates e)
             (log [EPrint #"Waiting for Raspberry Pi Pico to reconnect..."] s) in
  (wait_for_device_reconnect e s).1 = Ret r.1
  /\ polls (wait_for_device_reconnect e s).2 = polls r.2
  /\ out (wait_for_device_reconnect e s).2 = out r.2.
Proof.
  simpl. rewrite wait_eq. unfold candidates. rewrite pass_app.
  destruct (pass e (registry_ports e) _) as [[d|] s']; [done|].
  destruct (pass e range_ports s') as [[d|] s'']; done.
Qed.

(** ** The claims *)

(** *** The unguarded matcher *)

Lemma unguarded_find_loop_skip pre rest e s :
  Forall Unguarded.other pre ->
  Unguarded.find_loop (pre ++ rest) e s = Unguarded.find_loop rest e s.
Proof.
  induction 1 as [|p pre (volume_label & Hl & Hne) _ IH]; simpl; [done|].
  unfold bind at 1. rewrite Hl. cbn [of_outcome]. unfold ret at 1.
  by rewrite decide_False by congruence.
Qed.


Lemma unguarded_find_loop_raise p post e s x :
  Unguarded.GetVolumeInformation p = Raises x ->
  Unguarded.find_loop (p :: post) e s = (Raise x, s).
Proof. intros Hl. simpl. unfold bind at 1. by rewrite Hl. Qed.

(** On partitions whose lookups all answer, the unguarded matcher and probe
    are the ones of the script above. *)
Lemma unguarded_find_loop_answering vols e s :
  Unguarded.find_loop (map Unguarded.answering vols) e s = find_loop vols e s.
Proof.
  induction vols as [|[d l] vols IH]; simpl; [done|].
  unfold bind at 1. cbn [of_outcome]. unfold ret at 1.
  by destruct (decide (partitionName = l)).
Qed.

Lemma unguarded_find_answering e s :
  Unguarded.find_rpi_rp2_drive
    (fun k => map Unguarded.answering (disk_partitions e k)) e s
  = find_rpi_rp2_drive e s.
Proof.
  unfold Unguarded.find_rpi_rp2_drive, find_rpi_rp2_drive, bind,
    psutil_disk_partitions.
  apply unguarded_find_loop_answering.
Qed.

Lemma unguarded_get_com_answering port e s :
  Unguarded.get_com_and_partion
    (fun k => map Unguarded.answering (disk_partitions e k)) port e s
  = get_com_and_partion port e s.
Proof.
  unfold Unguarded.get_com_and_partion, get_com_and_partion, bind.
  destruct (try_except _ _ e s) as [[[]|x|] s']; [|done|done].
  by rewrite unguarded_find_answering.
Qed.



(** C4. A (port, volume) pair returned by [get_com_and_partion] or by
    [wait_for_device_reconnect] holds the device of a volume that a volume
    query of that very call listed with a label equal to the target label. *)
Theorem pair_has_target_label :
  (forall port e s p d,
     (get_com_and_partion port e s).1 = Ret (Some (p, d)) ->
     p = port
     /\ exists v, v ∈ disk_partitions e (polls s)
          /\ label v = partitionName /\ device v = d)
  /\ (forall e s p d,
        (wait_for_device_reconnect e s).1 = Ret (Some (p, d)) ->
        exists k v,
          (polls s <= k < polls (wait_for_device_reconnect e s).2)%nat
          /\ v ∈ disk_partitions e k
          /\ label v = partitionName /\ device v = d).
Proof.
  split.
  - intros port e s p d. rewrite get_com_eq. simpl.
    destruct (hit _) as [d'|] eqn:Hhit; [|done]. intros [= <- <-].
    split; [done|]. apply hit_mounted in Hhit as [Hm _]. by apply mounted_elem.
  - intros e s p d. destruct (wait_pass e s) as (Hr & Hp & _).
    rewrite Hr, Hp. clear Hr Hp.
    set (s1 := log _ s). intros [= Hpass].
    pose proof (pass_inv e (candidates e) s1) as Hinv. rewrite Hpass in Hinv.
    destruct Hinv as (n & Hn & Hd & Hmiss).
    destruct (pass_hit e _ s1 n p d Hn Hmiss Hd) as (s' & evs & Heq & Hpolls & _).
    rewrite Heq. simpl. rewrite Hpolls.
    apply hit_mounted in Hd as [Hm _].
    destruct (mounted_elem _ _ Hm) as (v & Hv).
    exists (polls s + n)%nat, v. split; [simpl; lia | done].
Qed.

Lemma pair_has_target_label_witness :
  let e := with_partitions (appears_at 2) (with_registry two_ports offline) in
  (exists v, v ∈ disk_partitions e 2 /\ label v = partitionName /\ device v = #"E:\")
  /\ (exists k v, (1 <= k < polls (wait_for_device_reconnect e (polled boot)).2)%nat
        /\ v ∈ disk_partitions e k /\ label v = partitionName /\ device v = #"E:\").
Proof.
  intros e. split.
  - destruct (proj1 pair_has_target_label #"COM5" e (polled (polled boot)) #"COM5" #"E:\")
      as [_ H]; [reflexivity | exact H].
  - apply (proj2 pair_has_target_label e (polled boot) #"COM5" #"E:\"). reflexivity.
Defined.

(** C10. Without a positional argument on the command line [copyFile]
    returns at once: nothing is copied, nothing printed, nothing raised, and
    the state of the world is the one it started in. *)
Theorem copyFile_without_argument partition e s :
  (length (sys_argv e) < 2)%nat ->
  copyFile partition e s = (Ret tt, s).
Proof.
  intros H. unfold copyFile, bind, get_argv.
  destruct (sys_argv e) as [|prog [|path rest]]; [done | done | simpl in H; lia].
Qed.

Lemma copyFile_without_argument_witness :
  copyFile #"E:\" (with_argv [ #"flash.py"] (with_image 4096 None offline)) boot
  = (Ret tt, boot).
Proof.
  apply (copyFile_without_argument #"E:\" (with_argv [ #"flash.py"] (with_image 4096 None offline)) boot).
  simpl. lia.
Defined.

(** C2, as stated, fails: when the port opens, the probe goes from the
    open straight to the volume query, with no sleep at all. *)
Lemma touch_without_settle :
  let e := with_Serial_error (fun _ _ _ => None) offline in
  out (get_com_and_partion #"COM3" e boot).2
  = [EPrint #"Opening serial connection on COM3 ..."; ESerial #"COM3" 1200; EPartitions]
  /\ forall seconds, ESleep seconds ∉ out (get_com_and_partion #"COM3" e boot).2.
Proof.
  split; [reflexivity|]. intros seconds H.
  vm_compute in H. repeat (apply elem_of_cons in H as [H|H]; [discriminate|]).
  by apply elem_of_nil in H.
Qed.

(** C2, amended. A probe prints its line, opens the port at 1200 baud and
    queries the volumes; it sleeps 3 seconds between the open and the query
    exactly when the open raised, and not when it succeeded. *)
Theorem touch_settle_only_on_failure port e s :
  out (get_com_and_partion port e s).2
  = out s
    ++ [EPrint (opening_line port); ESerial port 1200]
    ++ match Serial_error e (opens s) port 1200 with
       | Some _ => [ESleep 3]
       | None => []
       end
    ++ [EPartitions]
    ++ drive_events (disk_partitions e (polls s)).
Proof. by rewrite get_com_eq. Qed.

(** C1, as stated, fails: with no bootloader volume in sight, one pass over
    the registry ports and COM1..COM15 ends the wait with [None]. *)
Lemma wait_returns_not_found :
  let e := with_registry two_ports offline in
  (wait_for_device_reconnect e boot).1 = Ret None
  /\ polls (wait_for_device_reconnect e boot).2 = 17%nat.
Proof. split; reflexivity. Qed.

(** C1, amended. The reconnect wait makes a single pass over its candidate
    ports (the registry ports, then COM1..COM15) and always returns.  It
    returns [None] exactly when no probe of the pass sees the bootloader
    volume, and otherwise the port of the first probe that sees it, paired
    with the device of that volume. *)
Theorem wait_single_pass e s :
  (exists r, (wait_for_device_reconnect e s).1 = Ret r)
  /\ ((wait_for_device_reconnect e s).1 = Ret None <->
      forall j, (j < length (candidates e))%nat ->
        hit (disk_partitions e (polls s + j)) = None)
  /\ (forall p d,
        (wait_for_device_reconnect e s).1 = Ret (Some (p, d)) <->
        exists n, candidates e !! n = Some p
          /\ hit (disk_partitions e (polls s + n)) = Some d
          /\ forall j, (j < n)%nat -> hit (disk_partitions e (polls s + j)) = None).
Proof.
  destruct (wait_pass e s) as (Hr & _). rewrite Hr. clear Hr.
  set (s1 := log _ s).
  pose proof (pass_inv e (candidates e) s1) as Hinv.
  change (polls s1) with (polls s) in Hinv.
  split; [by eexists|]. split; [|intros p d]; split.
  - intros [= Hnone]. rewrite Hnone in Hinv. apply Hinv.
  - intros Hmiss. destruct (pass_miss e (candidates e) s1 Hmiss) as (s' & evs & -> & _).
    done.
  - intros [= Hsome]. by rewrite Hsome in Hinv.
  - intros (n & Hn & Hd & Hmiss).
    destruct (pass_hit e _ s1 n p d Hn Hmiss Hd) as (s' & evs & -> & _). done.
Qed.

Lemma wait_single_pass_witness :
  let e := with_partitions (appears_at 1) (with_registry two_ports offline) in
  (wait_for_device_reconnect e boot).1 = Ret (Some (#"COM5", #"E:\"))
  /\ (wait_for_device_reconnect (with_registry two_ports offline) boot).1 = Ret None.
Proof.
  intros e. split.
  - apply (proj2 (proj2 (wait_single_pass e boot)) #"COM5" #"E:\").
    exists 1%nat. repeat split. intros j Hj.
    destruct j as [|j]; [reflexivity | lia].
  - apply (proj1 (proj2 (wait_single_pass (with_registry two_ports offline) boot))).
    intros j _. reflexivity.
Defined.

(** C3: the code does not do what the claim says.  A port resolved through
    the registry branch is returned without being written to the shelve
    database, while the same port resolved by the range scan is written. *)
Theorem registry_hit_not_stored :
  let found := with_partitions (fun _ => [disk_c; pico]) offline in
  (wait_for_device_reconnect (with_registry two_ports found) boot).1
    = Ret (Some (#"COM3", #"E:\"))
  /\ shelf (wait_for_device_reconnect (with_registry two_ports found) boot).2 = None
  /\ (wait_for_device_reconnect found boot).1 = Ret (Some (#"COM1", #"E:\"))
  /\ shelf (wait_for_device_reconnect found boot).2
     = Some {[ storage_key := #"COM1" ]}.
Proof. repeat split; vm_compute; reflexivity. Qed.

(** C6. With the registry unavailable or empty, and the bootloader volume
    first seen by the seventh volume query of the call, the range scan opens
    COM1, COM2, ..., COM7 in this order at 1200 baud, opens no other port,
    and returns COM7 with the device of the volume. *)
Theorem range_scan_stops_at_COM7 e s d :
  registry e = Ok [] \/ (exists x, registry e = Raises x) ->
  (forall j, (j < 6)%nat -> absent (disk_partitions e (polls s + j))) ->
  mounted_at (disk_partitions e (polls s + 6)) d -> d <> [] ->
  exists s' evs,
    wait_for_device_reconnect e s = (Ret (Some (#"COM7", d)), s')
    /\ out s' = out s ++ evs
    /\ opened_ports evs
       = [(#"COM1", 1200); (#"COM2", 1200); (#"COM3", 1200); (#"COM4", 1200);
          (#"COM5", 1200); (#"COM6", 1200); (#"COM7", 1200)]
    /\ shelf s' = Some (<[storage_key := #"COM7"]> (default ∅ (shelf s))).
Proof.
  intros Hreg Habs Hm Hd. rewrite wait_eq.
  assert (Hports : registry_ports e = []).
  { unfold registry_ports. by destruct Hreg as [-> | [x ->]]. }
  rewrite Hports. cbn [pass]. set (s1 := log _ s).
  destruct (pass_hit e range_ports s1 6 #"COM7" d) as (s' & evs & Heq & _ & Ho & Hs).
  - reflexivity.
  - intros j Hj. apply absent_hit. by apply Habs.
  - by apply hit_mounted.
  - pose proof (pass_shelf e range_ports s1) as Hshelf.
    rewrite Heq in Hshelf |- *. simpl in Hshelf.
    exists (stored storage_key #"COM7" s'),
      ([EPrint #"Waiting for Raspberry Pi Pico to reconnect..."] ++ evs).
    split; [done|].
    split; [simpl; rewrite Ho; subst s1; simpl; by rewrite <- app_assoc|].
    split; [exact Hs|]. simpl. by rewrite Hshelf.
Qed.

Lemma range_scan_stops_at_COM7_witness :
  exists s' evs,
    wait_for_device_reconnect (with_partitions (appears_at 6) offline) boot
      = (Ret (Some (#"COM7", #"E:\")), s')
    /\ out s' = out boot ++ evs
    /\ opened_ports evs
       = [(#"COM1", 1200); (#"COM2", 1200); (#"COM3", 1200); (#"COM4", 1200);
          (#"COM5", 1200); (#"COM6", 1200); (#"COM7", 1200)]
    /\ shelf s' = Some (<[storage_key := #"COM7"]> (default ∅ (shelf boot))).
Proof.
  apply (range_scan_stops_at_COM7 (with_partitions (appears_at 6) offline) boot #"E:\").
  - right. by eexists.
  - intros j Hj.
    destruct j as [|[|[|[|[|[|j]]]]]]; [repeat constructor; discriminate ..| lia].
  - exists [disk_c], pico, []. repeat split. repeat constructor; discriminate.
  - discriminate.
Defined.

(** ** The serial monitor *)

Lemma decode_error_is_caught data x :
  decode data = Raises x -> is_interrupt_or_serial x = false /\ is_Exception x = true.
Proof. unfold decode. destruct (utf8_decode data); [done | by intros [= <-]]. Qed.

(** One round of the monitoring loop on a chunk that was read. *)
Lemma read_loop_step fuel e s data :
  readline e (reads s) = Ok data ->
  read_loop (S fuel) e s = read_loop fuel e (log (line_output data) (read s)).
Proof.
  intros Hread. cbn [read_loop]. unfold bind at 1, try_except, bind at 1, ser_readline.
  rewrite Hread. cbn [of_outcome]. unfold ret at 1, line_output.
  destruct data as [|b data]; [by rewrite log_nil|].
  unfold bind at 1.
  destruct (decode (b :: data)) as [text|x] eqn:Hdec; cbn [of_outcome].
  - done.
  - unfold raise at 1. by destruct (decode_error_is_caught _ _ Hdec) as [-> ->].
Qed.

(** The loop when the read is interrupted or the port fails. *)
Lemma read_loop_exit fuel e s x :
  readline e (reads s) = Raises x -> is_interrupt_or_serial x = true ->
  read_loop (S fuel) e s = (Raise (SystemExit 0), read s).
Proof.
  intros Hread Hx. cbn [read_loop].
  unfold bind at 1, try_except, bind at 1, ser_readline.
  rewrite Hread. cbn [of_outcome]. unfold raise at 1. by rewrite Hx.
Qed.

Lemma read_loop_lines lines : forall fuel e s x,
  (forall k data, lines !! k = Some data -> readline e (reads s + k) = Ok data) ->
  readline e (reads s + length lines) = Raises x ->
  is_interrupt_or_serial x = true ->
  (length lines < fuel)%nat ->
  exists s',
    read_loop fuel e s = (Raise (SystemExit 0), s')
    /\ out s' = out s ++ concat (map line_output lines)
    /\ opens s' = opens s /\ polls s' = polls s /\ shelf s' = shelf s.
Proof.
  induction lines as [|data lines IH]; intros fuel e s x Hlines Hend Hx Hfuel;
    (destruct fuel as [|fuel]; [simpl in Hfuel; lia|]).
  - rewrite Nat.add_0_r in Hend. rewrite (read_loop_exit _ _ _ _ Hend Hx).
    exists (read s). simpl. by rewrite app_nil_r.
  - rewrite (read_loop_step _ _ _ data).
    2:{ rewrite <- (Nat.add_0_r (reads s)). by apply Hlines. }
    destruct (IH fuel e (log (line_output data) (read s)) x)
      as (s' & -> & Ho & Hop & Hp & Hsh).
    + intros k d Hk. simpl. rewrite <- Nat.add_succ_r. by apply Hlines.
    + simpl. rewrite <- Nat.add_succ_r. exact Hend.
    + exact Hx.
    + simpl in Hfuel. lia.
    + exists s'. split; [done|]. simpl in *. by rewrite Ho, <- app_assoc.
Qed.

(** C7. Once the port is open, the monitor prints, for every non-empty chunk
    it reads, the chunk decoded as UTF-8 and stripped of leading and trailing
    white space, or, when the chunk does not decode, the decoding error, and
    goes on reading in both cases; the chunk [b"boot ok\n"] is printed as
    [boot ok]. *)
Theorem read_com_emits fuel port e s lines x :
  Serial_error e (opens s) port 115200 = None ->
  (forall k data, lines !! k = Some data -> readline e (reads s + k) = Ok data) ->
  readline e (reads s + length lines) = Raises x ->
  is_interrupt_or_serial x = true ->
  (length lines < fuel)%nat ->
  (read_com fuel port e s).1 = Raise (SystemExit 0)
  /\ out (read_com fuel port e s).2
     = out s ++ [EPrint (opening_line port); ESerial port 115200]
       ++ concat (map line_output lines)
  /\ (forall data text, data <> [] -> decode data = Ok text ->
        line_output data = [EPrint (strip text)])
  /\ (forall data err, data <> [] -> decode data = Raises err ->
        line_output data = [EPrint (str_exn err)])
  /\ line_output (#"boot ok" ++ [10%N]) = [EPrint #"boot ok"].
Proof.
  intros Hopen Hlines Hend Hx Hfuel.
  assert (Hrun : exists s', read_com fuel port e s = (Raise (SystemExit 0), s')
     /\ out s' = out s ++ [EPrint (opening_line port); ESerial port 115200]
                 ++ concat (map line_output lines)).
  { unfold read_com, serial_baudrate, try_except, bind, print, serial_Serial.
    cbn [opens log]. rewrite Hopen.
    destruct (read_loop_lines lines fuel e
                (opened (log [ESerial port 115200] (log [EPrint (opening_line port)] s))) x)
      as (s' & Heq & Ho & _); try done.
    fold (opening_line port). rewrite Heq. exists s'. split; [done|].
    rewrite Ho. simpl. by rewrite <- !app_assoc. }
  destruct Hrun as (s' & -> & Ho). repeat split; try done.
  - intros [|b data] text Hne Hdec; [done|]. unfold line_output. by rewrite Hdec.
  - intros [|b data] err Hne Hdec; [done|]. unfold line_output. by rewrite Hdec.
Qed.

Lemma read_com_emits_witness :
  let e := with_readline
             (fun k => match k with
                       | 0%nat => Ok (#"boot ok" ++ [10%N])
                       | 1%nat => Ok []
                       | 2%nat => Ok [0xFF; 10]%N
                       | 3%nat => Ok (#"  ready " ++ [13; 10]%N)
                       | _ => Raises KeyboardInterrupt
                       end)
             (with_Serial_error (fun _ _ _ => None) offline) in
  (read_com 9 #"COM5" e boot).1 = Raise (SystemExit 0)
  /\ out (read_com 9 #"COM5" e boot).2
     = [EPrint #"Opening serial connection on COM5 ..."; ESerial #"COM5" 115200;
        EPrint #"boot ok";
        EPrint #"'utf-8' codec can't decode byte 0xff in position 0: invalid start byte";
        EPrint #"ready"].
Proof.
  intros e.
  destruct (read_com_emits 9 #"COM5" e boot
              [ #"boot ok" ++ [10%N]; []; [0xFF; 10]%N; #"  ready " ++ [13; 10]%N]
              KeyboardInterrupt) as (Hr & Ho & _).
  - reflexivity.
  - intros k data Hk.
    destruct k as [|[|[|[|k]]]]; simpl in Hk; try discriminate;
      injection Hk as <-; reflexivity.
  - reflexivity.
  - reflexivity.
  - simpl. lia.
  - split; [exact Hr | exact Ho].
Defined.

(** ** Every computation of the script only appends to the trace *)

Lemma extends_same {A} (c : M A) :
  (forall e s, out (c e s).2 = out s) -> extends c.
Proof. intros H e s. exists []. by rewrite H, app_nil_r. Qed.

Lemma extends_log {A} (c : M A) evs :
  (forall e s, out (c e s).2 = out (log evs s)) -> extends c.
Proof. intros H e s. exists evs. by rewrite H. Qed.

Lemma extends_bind {A B} (c : M A) (k : A -> M B) :
  extends c -> (forall a, extends (k a)) -> extends (bind c k).
Proof.
  intros Hc Hk e s. unfold bind. destruct (Hc e s) as [evs Hevs].
  destruct (c e s) as [[a|x|] s']; simpl in Hevs; [|by exists evs ..].
  destruct (Hk a e s') as [evs' Hevs']. exists (evs ++ evs').
  by rewrite Hevs', Hevs, app_assoc.
Qed.

Lemma extends_try {A} (body : M A) clauses :
  extends body -> (forall x h, clauses x = Some h -> extends h) ->
  extends (try_except body clauses).
Proof.
  intros Hb Hh e s. unfold try_except. destruct (Hb e s) as [evs Hevs].
  destruct (body e s) as [[a|x|] s']; simpl in Hevs; [by exists evs | | by exists evs].
  destruct (clauses x) as [h|] eqn:Hx; [|by exists evs].
  destruct (Hh x h Hx e s') as [evs' Hevs']. exists (evs ++ evs').
  by rewrite Hevs', Hevs, app_assoc.
Qed.

Lemma extends_ret {A} (a : A) : extends (ret a).
Proof. by apply extends_same. Qed.

Lemma extends_raise {A} x : extends (@raise A x).
Proof. by apply extends_same. Qed.

Lemma extends_looping {A} : extends (@looping A).
Proof. by apply extends_same. Qed.

Lemma extends_of_outcome {A} (o : outcome A) : extends (of_outcome o).
Proof. destruct o; by apply extends_same. Qed.

Lemma extends_print line : extends (print line).
Proof. by apply (extends_log _ [EPrint line]). Qed.

Lemma extends_sleep seconds : extends (time_sleep seconds).
Proof. by apply (extends_log _ [ESleep seconds]). Qed.

Lemma extends_Serial port baudrate : extends (serial_Serial port baudrate).
Proof.
  apply (extends_log _ [ESerial port baudrate]). intros e s.
  unfold serial_Serial. by destruct (Serial_error _ _ _ _).
Qed.

Lemma extends_readline : extends ser_readline.
Proof.
  apply extends_same. intros e s. unfold ser_readline.
  by destruct (readline e (reads s)).
Qed.

Lemma extends_get_com port : extends (get_com_and_partion port).
Proof. intros e s. rewrite get_com_eq. by eexists. Qed.

Lemma extends_find : extends find_rpi_rp2_drive.
Proof.
  intros e s. unfold find_rpi_rp2_drive, bind, psutil_disk_partitions.
  rewrite find_loop_eq. simpl. eexists. by rewrite <- app_assoc.
Qed.

Lemma extends_exists path : extends (os_path_exists path).
Proof. by apply extends_same. Qed.

Lemma extends_getsize path : extends (os_path_getsize path).
Proof. intros e s. unfold os_path_getsize. apply extends_of_outcome. Qed.

Lemma extends_copy src dst : extends (shutil_copy src dst).
Proof.
  apply (extends_log _ [ECopy src dst]). intros e s.
  unfold shutil_copy. by destruct (copy_error _ _ _).
Qed.

Lemma extends_argv : extends get_argv.
Proof. by apply extends_same. Qed.

Create HintDb extends.
#[local] Hint Resolve extends_ret extends_raise extends_looping extends_of_outcome
  extends_print extends_sleep extends_Serial extends_readline extends_get_com
  extends_find extends_exists extends_getsize extends_copy extends_argv : extends.

(** Walks through binds, [try] blocks and branches; the calls at the leaves
    are closed from the hint database. *)
Ltac extends_tac :=
  repeat first
    [ solve [eauto with extends nocore]
    | apply extends_bind
    | apply extends_try
    | match goal with
      | |- forall _, _ => intros ?
      | H : Some _ = Some _ |- _ => injection H as <-
      | H : None = Some _ |- _ => discriminate H
      | H : (if ?b then _ else _) = Some _ |- _ => destruct b
      | |- extends (match ?x with _ => _ end) => destruct x
      end ].

Lemma extends_copyFile partition : extends (copyFile partition).
Proof. unfold copyFile. extends_tac. Qed.

Lemma extends_read_loop fuel : extends (read_loop fuel).
Proof.
  induction fuel as [|fuel IH]; [apply extends_looping|].
  cbn [read_loop]. extends_tac.
Qed.

Lemma extends_read_com fuel port : extends (read_com fuel port).
Proof.
  pose proof (extends_read_loop fuel).
  unfold read_com, serial_baudrate. extends_tac.
Qed.

Lemma extends_wait : extends wait_for_device_reconnect.
Proof.
  intros e s. destruct (wait_pass e s) as (_ & _ & ->).
  set (s1 := log _ s).
  assert (H : forall ports s0, exists evs, out (pass e ports s0).2 = out s0 ++ evs).
  { induction ports as [|p ports IH]; intros s0; simpl.
    - exists []. by rewrite app_nil_r.
    - destruct (hit _); [by eexists|].
      destruct (IH (after_probe p e s0)) as [evs ->]. simpl.
      eexists. by rewrite <- app_assoc. }
  destruct (H (candidates e) s1) as [evs ->]. subst s1. simpl.
  eexists. by rewrite <- app_assoc.
Qed.

(** ** Absorbed errors *)

Lemma pass_with_registry r e ports s :
  pass (with_registry r e) ports s = pass e ports s.
Proof.
  revert s. induction ports as [|p ports IH]; intros s; simpl; [done|].
  destruct (hit _); [done|]. apply IH.
Qed.

Lemma copyFile_failure partition e s prog path rest x :
  sys_argv e = prog :: path :: rest -> path_exists e path = true ->
  is_Exception x = true ->
  path_getsize e path = Raises x
  \/ (exists size, path_getsize e path = Ok size
        /\ copy_error e path partition = Some x) ->
  (copyFile partition e s).1 = Ret tt
  /\ exists evs,
       out (copyFile partition e s).2
       = out s ++ evs ++ [EPrint (#"Error copying file: " ++ str_exn x)].
Proof.
  intros Hargv Hexists Hx Hfail.
  assert (H : exists evs, copyFile partition e s
    = (Ret tt, log [EPrint (#"Error copying file: " ++ str_exn x)] (log evs s))).
  { unfold copyFile, bind, try_except, get_argv, os_path_exists,
      os_path_getsize, print, shutil_copy.
    rewrite Hargv, Hexists.
    destruct Hfail as [-> | (size & -> & Hcopy)]; cbn [of_outcome];
      unfold raise, ret.
    - rewrite Hx. exists []. by rewrite log_nil.
    - rewrite Hcopy, Hx.
      match goal with
      | |- context [log [ECopy _ _] (log ?l s)] =>
        exists (l ++ [ECopy path partition]); by rewrite (log_log l)
      end. }
  destruct H as [evs ->]. split; [done|]. exists evs. simpl.
  by rewrite <- app_assoc.
Qed.

(** C9, as stated, fails: a port that cannot be opened during the touch is
    absorbed with a sleep and no line of its own (the only line of the probe
    is printed before the open is tried, and the probe prints the same lines
    when the port opens), and a registry that cannot be queried is absorbed
    with nothing at all. *)
Lemma absorbed_without_a_line :
  Serial_error offline 0 #"COM3" 1200 = Some (SerialException #"could not open port COM3")
  /\ (get_com_and_partion #"COM3" offline boot).1 = Ret None
  /\ out (get_com_and_partion #"COM3" offline boot).2
     = [EPrint #"Opening serial connection on COM3 ..."; ESerial #"COM3" 1200;
        ESleep 3; EPartitions]
  /\ printed (out (get_com_and_partion #"COM3" offline boot).2)
     = printed (out (get_com_and_partion #"COM3"
                       (with_Serial_error (fun _ _ _ => None) offline) boot).2)
  /\ (exists x, registry offline = Raises x)
  /\ wait_for_device_reconnect offline boot
     = wait_for_device_reconnect (with_registry (Ok []) offline) boot.
Proof.
  split; [reflexivity|]. split; [reflexivity|]. split; [reflexivity|].
  split; [reflexivity|]. split; [by eexists|]. vm_compute. reflexivity.
Qed.

(** C9, amended. A failed copy, a chunk that does not decode and a monitor
    port that does not open each print a line with the text of the error.
    A port that does not open during the touch is absorbed with the
    3 second sleep and no line of its own, and a registry that cannot be
    queried behaves exactly like an empty one. *)
Theorem absorbed_errors :
  (forall partition e s prog path rest x,
     sys_argv e = prog :: path :: rest -> path_exists e path = true ->
     is_Exception x = true ->
     path_getsize e path = Raises x
     \/ (exists size, path_getsize e path = Ok size
           /\ copy_error e path partition = Some x) ->
     (copyFile partition e s).1 = Ret tt
     /\ exists evs,
          out (copyFile partition e s).2
          = out s ++ evs ++ [EPrint (#"Error copying file: " ++ str_exn x)])
  /\ (forall fuel e s data x,
        readline e (reads s) = Ok data -> data <> [] -> decode data = Raises x ->
        read_loop (S fuel) e s
        = read_loop fuel e (log [EPrint (str_exn x)] (read s)))
  /\ (forall fuel port e s x,
        Serial_error e (opens s) port 115200 = Some x -> is_Exception x = true ->
        (read_com fuel port e s).1 = Ret tt
        /\ out (read_com fuel port e s).2
           = out s ++ [EPrint (opening_line port); ESerial port 115200;
                       EPrint (str_exn x)])
  /\ (forall port e s x,
        Serial_error e (opens s) port 1200 = Some x ->
        (exists r, (get_com_and_partion port e s).1 = Ret r)
        /\ out (get_com_and_partion port e s).2
           = out s ++ [EPrint (opening_line port); ESerial port 1200;
                       ESleep 3; EPartitions]
             ++ drive_events (disk_partitions e (polls s)))
  /\ (forall e s x,
        registry e = Raises x ->
        wait_for_device_reconnect e s
        = wait_for_device_reconnect (with_registry (Ok []) e) s).
Proof.
  split; [exact copyFile_failure|]. split; [|split; [|split]].
  - intros fuel e s [|b data] x Hread Hne Hdec; [done|].
    rewrite (read_loop_step _ _ _ _ Hread). unfold line_output. by rewrite Hdec.
  - intros fuel port e s x Hopen Hx.
    unfold read_com, serial_baudrate, try_except, bind, print, serial_Serial.
    cbn [opens log]. rewrite Hopen, Hx. simpl. split; [done|].
    by rewrite <- !app_assoc.
  - intros port e s x Hopen. rewrite get_com_eq. split; [by eexists|].
    simpl. unfold probe_events, settle_events. by rewrite Hopen.
  - intros e s x Hreg. rewrite !wait_eq. unfold registry_ports.
    cbn [registry with_registry]. rewrite Hreg. cbn [map pass].
    by rewrite pass_with_registry.
Qed.

Lemma absorbed_errors_witness :
  (let e := with_image 4096 (Some (OSError #"[Errno 28] No space left on device")) offline in
   (copyFile #"E:\" e boot).1 = Ret tt
   /\ exists evs,
        out (copyFile #"E:\" e boot).2
        = out boot ++ evs
          ++ [EPrint #"Error copying file: [Errno 28] No space left on device"])
  /\ (let e := with_readline (fun _ => Ok [0xC3; 0x28]%N) offline in
      exists x, read_loop 1 e boot = read_loop 0 e (log [EPrint (str_exn x)] (read boot)))
  /\ out (read_com 3 #"COM5" offline boot).2
     = out boot ++ [EPrint (opening_line #"COM5"); ESerial #"COM5" 115200;
                    EPrint #"could not open port COM5"]
  /\ out (get_com_and_partion #"COM5" offline boot).2
     = out boot ++ [EPrint (opening_line #"COM5"); ESerial #"COM5" 1200;
                    ESleep 3; EPartitions]
       ++ drive_events (disk_partitions offline (polls boot))
  /\ wait_for_device_reconnect offline boot
     = wait_for_device_reconnect (with_registry (Ok []) offline) boot.
Proof.
  destruct absorbed_errors as (Hcopy & Hdecode & Hmonitor & Htouch & Hreg).
  split; [|split; [|split; [|split]]].
  - intros e.
    apply (Hcopy #"E:\" e boot #"flash.py" #"firmware.uf2" []
             (OSError #"[Errno 28] No space left on device"));
      [reflexivity | reflexivity | reflexivity |].
    right. exists 4096. by split.
  - intros e.
    exists (UnicodeDecodeError [0xC3; 0x28]%N 0 1 #"invalid continuation byte").
    apply (Hdecode 0%nat e boot [0xC3; 0x28]%N); [reflexivity | discriminate | reflexivity].
  - apply (Hmonitor 3%nat #"COM5" offline boot (SerialException #"could not open port COM5"));
      reflexivity.
  - apply (Htouch #"COM5" offline boot (SerialException #"could not open port COM5")).
    reflexivity.
  - apply (Hreg offline boot
             (OSError #"[WinError 2] The system cannot find the file specified")).
    reflexivity.
Defined.

(** ** The orchestrator *)

Lemma bind_Ret {A B} (c : M A) (k : A -> M B) e s a s' :
  c e s = (Ret a, s') -> bind c k e s = k a e s'.
Proof. unfold bind. by intros ->. Qed.

Lemma bind_assoc {A B C} (c : M A) (k : A -> M B) (k' : B -> M C) e s :
  bind (bind c k) k' e s = bind c (fun a => bind (k a) k') e s.
Proof. unfold bind. by destruct (c e s) as [[a|x|] s']. Qed.

Lemma reaches_later {A B} (c : M A) (k : A -> M B) e s a s' mid :
  c e s = (Ret a, s') -> (exists evs, out s' = out s ++ evs) ->
  reaches (k a) e s' mid -> reaches (bind c k) e s mid.
Proof.
  intros Hc [evs Hevs] (pre & post & H). unfold reaches.
  rewrite (bind_Ret _ _ _ _ _ _ Hc).
  exists (evs ++ pre), post. by rewrite H, Hevs, <- !app_assoc.
Qed.

Lemma starts_reaches {A} (c : M A) e s mid : starts c e s mid -> reaches c e s mid.
Proof. intros [post H]. by exists [], post. Qed.

Lemma starts_cons {A B} (c : M A) (k : A -> M B) e s a s' evs mid :
  c e s = (Ret a, s') -> out s' = out s ++ evs ->
  starts (k a) e s' mid -> starts (bind c k) e s (evs ++ mid).
Proof.
  intros Hc Hevs [post H]. unfold starts. rewrite (bind_Ret _ _ _ _ _ _ Hc).
  exists post. by rewrite H, Hevs, <- !app_assoc.
Qed.

Lemma starts_now {A B} (c : M A) (k : A -> M B) e s mid :
  starts c e s mid -> (forall a, extends (k a)) -> starts (bind c k) e s mid.
Proof.
  intros [post H] Hk. unfold starts, bind.
  destruct (c e s) as [[a|x|] s']; simpl in H; [|by exists post ..].
  destruct (Hk a e s') as [evs Hevs]. exists (post ++ evs).
  by rewrite Hevs, H, <- !app_assoc.
Qed.

Lemma starts_assoc {A B C} (c : M A) (k : A -> M B) (k' : B -> M C) e s mid :
  starts (bind c (fun a => bind (k a) k')) e s mid ->
  starts (bind (bind c k) k') e s mid.
Proof. unfold starts. by rewrite bind_assoc. Qed.

Lemma extends_refl s : exists evs : list event, out s = out s ++ evs.
Proof. exists []. by rewrite app_nil_r. Qed.

Lemma find_eq e s :
  find_rpi_rp2_drive e s
  = (Ret (drive_of (disk_partitions e (polls s))),
     log (drive_events (disk_partitions e (polls s))) (polled (log [EPartitions] s))).
Proof.
  unfold find_rpi_rp2_drive, bind, psutil_disk_partitions. by rewrite find_loop_eq.
Qed.


Lemma read_com_starts fuel port e s :
  starts (read_com fuel port) e s [EPrint (opening_line port); ESerial port 115200].
Proof.
  unfold starts, read_com, serial_baudrate, try_except, bind, print, serial_Serial.
  cbn [opens log]. fold (opening_line port).
  set (s2 := opened (log [ESerial port 115200] (log [EPrint (opening_line port)] s))).
  assert (H2 : out s2 = out s ++ [EPrint (opening_line port); ESerial port 115200]).
  { simpl. by rewrite <- app_assoc. }
  clearbody s2.
  destruct (Serial_error e (opens s) port 115200) as [x|].
  - destruct (is_Exception x); simpl.
    + exists [EPrint (str_exn x)]. by rewrite H2, <- !app_assoc.
    + exists []. by rewrite H2.
  - destruct (extends_read_loop fuel e s2) as [evs Hevs].
    destruct (read_loop fuel e s2) as [[[]|x|] s']; simpl in Hevs.
    + exists evs. simpl. by rewrite Hevs, H2, <- app_assoc.
    + destruct (is_Exception x); simpl.
      * exists (evs ++ [EPrint (str_exn x)]).
        by rewrite Hevs, H2, <- !app_assoc.
      * exists evs. by rewrite Hevs, H2, <- app_assoc.
    + exists evs. simpl. by rewrite Hevs, H2, <- app_assoc.
Qed.

Lemma wait_hit e s n p d :
  candidates e !! n = Some p ->
  (forall j, (j < n)%nat -> hit (disk_partitions e (polls s + j)) = None) ->
  hit (disk_partitions e (polls s + n)) = Some d ->
  exists s' evs,
    wait_for_device_reconnect e s = (Ret (Some (p, d)), s')
    /\ out s' = out s ++ evs.
Proof.
  intros Hn Hmiss Hd. destruct (wait_pass e s) as (Hr & _).
  destruct (pass_hit e (candidates e)
              (log [EPrint #"Waiting for Raspberry Pi Pico to reconnect..."] s)
              n p d Hn Hmiss Hd) as (s1 & evs1 & Heq & _).
  rewrite Heq in Hr. destruct (extends_wait e s) as [evs Hevs].
  destruct (wait_for_device_reconnect e s) as [r s']. simpl in *. subst r.
  by exists s', evs.
Qed.




(** ** Further properties of the script *)

Lemma added_app s s' evs : out s' = out s ++ evs -> added s s' = evs.
Proof. intros H. unfold added. rewrite H. apply drop_app_length. Qed.

Lemma added_log s evs : added s (log evs s) = evs.
Proof. by apply added_app. Qed.

Lemma added_refl s : added s s = [].
Proof. apply added_app. by rewrite app_nil_r. Qed.

(** *** [copyFile] *)

(** Runs [copyFile] through each of its paths. *)
Ltac copyFile_paths e partition :=
  unfold copyFile, bind, try_except, get_argv, os_path_exists,
    os_path_getsize, print, shutil_copy, time_sleep;
  let prog := fresh "prog" in
  let path := fresh "path" in
  let rest := fresh "rest" in
  let Hargv := fresh "Hargv" in
  destruct (sys_argv e) as [|prog [|path rest]] eqn:Hargv;
  [ | | let Hexists := fresh "Hexists" in
        destruct (path_exists e path) eqn:Hexists;
        [ let size := fresh "size" in
          let x := fresh "x" in
          let Hsize := fresh "Hsize" in
          destruct (path_getsize e path) as [size|x] eqn:Hsize;
          cbn [of_outcome]; unfold ret, raise;
          [ let Hcopy := fresh "Hcopy" in
            destruct (copy_error e path partition) as [x|] eqn:Hcopy;
            [ let Hx := fresh "Hx" in destruct (is_Exception x) eqn:Hx | ]
          | let Hx := fresh "Hx" in destruct (is_Exception x) eqn:Hx ]
        | ] ];
  unfold ret; rewrite ?log_log; cbn [app].

Lemma copyFile_success partition e s prog path rest size :
  sys_argv e = prog :: path :: rest -> path_exists e path = true ->
  path_getsize e path = Ok size -> copy_error e path partition = None ->
  copyFile partition e s
  = (Ret tt,
     log [EPrint (#"Copying file " ++ path ++ #" to " ++ partition
                  ++ #". File size: " ++ str_int size ++ #" bytes");
          ECopy path partition;
          EPrint #"File copied successfully.";
          EPrint (#"Wait connecting to " ++ partition ++ #" (" ++ partitionName
                  ++ #") ...");
          ESleep 5] s).
Proof.
  intros Hargv Hexists Hsize Hcopy.
  unfold copyFile, bind, try_except, get_argv, os_path_exists,
    os_path_getsize, print, shutil_copy, time_sleep.
  rewrite Hargv, Hexists, Hsize. cbn [of_outcome]. unfold ret.
  rewrite Hcopy. by rewrite !log_log.
Qed.

(** X1. With an image that exists and copies without error, [copyFile]
    prints its size, copies it onto the volume once, prints two lines and
    sleeps 5 seconds, in this order, and returns. *)
Theorem copyFile_flashes partition e s prog path rest size :
  sys_argv e = prog :: path :: rest -> path_exists e path = true ->
  path_getsize e path = Ok size -> copy_error e path partition = None ->
  copyFile partition e s
  = (Ret tt,
     log [EPrint (#"Copying file " ++ path ++ #" to " ++ partition
                  ++ #". File size: " ++ str_int size ++ #" bytes");
          ECopy path partition;
          EPrint #"File copied successfully.";
          EPrint (#"Wait connecting to " ++ partition ++ #" (" ++ partitionName
                  ++ #") ...");
          ESleep 5] s).
Proof. apply copyFile_success. Qed.

Lemma copyFile_flashes_witness :
  copyFile #"E:\" (flashable 4096) boot
  = (Ret tt,
     log [EPrint #"Copying file firmware.uf2 to E:\. File size: 4096 bytes";
          ECopy #"firmware.uf2" #"E:\";
          EPrint #"File copied successfully.";
          EPrint #"Wait connecting to E:\ (RPI-RP2) ...";
          ESleep 5] boot).
Proof.
  apply (copyFile_flashes #"E:\" (flashable 4096) boot #"flash.py" #"firmware.uf2" [] 4096);
    reflexivity.
Defined.

(** X2. [copyFile] leaves the call counters and the shelve database alone.
    It calls [shutil.copy] at most once, and only to copy the file named by
    the first command line argument, which exists, onto the volume it was
    given. *)
Theorem copyFile_copies_only_the_image partition e s :
  exists evs,
    (copyFile partition e s).2 = log evs s
    /\ (length (copies evs) <= 1)%nat
    /\ forall src dst, (src, dst) ∈ copies evs ->
         dst = partition /\ sys_argv e !! 1%nat = Some src
         /\ path_exists e src = true.
Proof.
  copyFile_paths e partition.
  all: first [ exists []; rewrite log_nil; split; [done|]
             | eexists; split; [reflexivity|] ];
    (split; [simpl; lia|]); intros src dst Hin; simpl in Hin.
  all: try by apply elem_of_nil in Hin.
  all: apply list_elem_of_singleton in Hin; injection Hin as -> ->; done.
Qed.

(** X3. [copyFile] sleeps only after a copy that succeeded: whenever it has
    slept, the image was named on the command line, existed, had a size and
    was copied without error, and the sleep took 5 seconds. *)
Theorem copyFile_sleeps_only_after_copy partition e s :
  slept (added s (copyFile partition e s).2) <> 0 ->
  slept (added s (copyFile partition e s).2) = 5
  /\ (copyFile partition e s).1 = Ret tt
  /\ exists prog path rest size,
       sys_argv e = prog :: path :: rest /\ path_exists e path = true
       /\ path_getsize e path = Ok size
       /\ copy_error e path partition = None.
Proof.
  copyFile_paths e partition; cbn [fst snd];
    rewrite ?added_log, ?added_refl; simpl; try done.
  intros _. split; [done|]. split; [done|]. by exists prog, path, rest, size.
Qed.

Lemma copyFile_sleeps_only_after_copy_witness :
  slept (added boot (copyFile #"E:\" (flashable 4096) boot).2) = 5
  /\ (copyFile #"E:\" (flashable 4096) boot).1 = Ret tt
  /\ exists prog path rest size,
       sys_argv (flashable 4096) = prog :: path :: rest
       /\ path_exists (flashable 4096) path = true
       /\ path_getsize (flashable 4096) path = Ok size
       /\ copy_error (flashable 4096) path #"E:\" = None.
Proof.
  apply (copyFile_sleeps_only_after_copy #"E:\" (flashable 4096) boot).
  vm_compute. discriminate.
Defined.

(** X4. [copyFile] never ends by an exception of class [Exception], and it
    never loops: whatever goes wrong while it reads the size or copies is
    printed and absorbed; only an interrupt or an exit passes through. *)
Theorem copyFile_absorbs_exceptions partition e s :
  match (copyFile partition e s).1 with
  | Ret _ => True
  | Raise x => is_Exception x = false
  | Looping => False
  end.
Proof. copyFile_paths e partition; done. Qed.

(** *** [get_com_and_partion] *)


(** *** [read_com] *)

(** One round of the monitoring loop on a read that does not end it. *)
Lemma read_loop_goes_on fuel e s :
  goes_on (readline e (reads s)) = true ->
  read_loop (S fuel) e s
  = read_loop fuel e (log (read_output (readline e (reads s))) (read s)).
Proof.
  destruct (readline e (reads s)) as [data|x] eqn:Hread; simpl.
  - intros _. by apply read_loop_step.
  - intros [Hx1 Hx2]%andb_prop. apply negb_true_iff in Hx1.
    cbn [read_loop]. unfold bind at 1, try_except, bind at 1, ser_readline.
    rewrite Hread. cbn [of_outcome]. unfold raise at 1. by rewrite Hx1, Hx2.
Qed.

(** The monitoring loop never returns: it is left by [SystemExit] only. *)
Lemma read_loop_ends fuel : forall e s,
  match (read_loop fuel e s).1 with
  | Ret _ => False
  | Raise x => exists code, x = SystemExit code
  | Looping => True
  end.
Proof.
  induction fuel as [|fuel IH]; intros e s; [done|].
  destruct (goes_on (readline e (reads s))) eqn:Hgo.
  - rewrite read_loop_goes_on by done. apply IH.
  - destruct (readline e (reads s)) as [data|x] eqn:Hread; [done|].
    cbn [read_loop]. unfold bind at 1, try_except, bind at 1, ser_readline.
    rewrite Hread. cbn [of_outcome]. unfold raise at 1.
    simpl in Hgo. destruct (is_interrupt_or_serial x) eqn:Hx1; simpl.
    + by exists 0.
    + simpl in Hgo. rewrite Hgo. simpl. destruct x; try done. by eexists.
Qed.

(** X6. Once the monitor port is open, [read_com] never returns to its
    caller: it goes on reading, or leaves by [SystemExit]. *)
Theorem read_com_never_returns fuel port e s :
  Serial_error e (opens s) port 115200 = None ->
  match (read_com fuel port e s).1 with
  | Ret _ => False
  | Raise x => exists code, x = SystemExit code
  | Looping => True
  end.
Proof.
  intros Hopen.
  unfold read_com, serial_baudrate, try_except, bind, print, serial_Serial.
  cbn [opens log]. rewrite Hopen.
  match goal with |- context [read_loop fuel e ?s2] =>
    pose proof (read_loop_ends fuel e s2) as H;
    destruct (read_loop fuel e s2) as [[[]|x|] s']
  end; simpl in *; [done | | done].
  destruct H as [code ->]. simpl. by eexists.
Qed.

Lemma read_com_never_returns_witness :
  match (read_com 4 #"COM5" (with_Serial_error (fun _ _ _ => None) offline) boot).1 with
  | Ret _ => False
  | Raise x => exists code, x = SystemExit code
  | Looping => True
  end.
Proof.
  apply (read_com_never_returns 4 #"COM5"
           (with_Serial_error (fun _ _ _ => None) offline) boot).
  reflexivity.
Defined.

Lemma read_loop_run rs : forall e s,
  (forall k r, rs !! k = Some r ->
     readline e (reads s + k) = r /\ goes_on r = true) ->
  exists s',
    read_loop (length rs) e s = (Looping, s')
    /\ out s' = out s ++ concat (map read_output rs)
    /\ reads s' = (reads s + length rs)%nat.
Proof.
  induction rs as [|r rs IH]; intros e s Hrs.
  - exists s. simpl. by rewrite app_nil_r, Nat.add_0_r.
  - destruct (Hrs 0%nat r eq_refl) as [Hr Hgo]. rewrite Nat.add_0_r in Hr.
    cbn [length]. rewrite read_loop_goes_on by (by rewrite Hr). rewrite Hr.
    destruct (IH e (log (read_output r) (read s))) as (s' & -> & Ho & Hreads).
    { intros k r' Hk. simpl. rewrite <- Nat.add_succ_r. by apply Hrs. }
    exists s'. split; [done|]. simpl in *. split; [by rewrite Ho, <- app_assoc | lia].
Qed.

(** X7. A read that fails with an error other than an interrupt or a serial
    error does not stop the monitor: the error is printed and the loop reads
    on, as it does after a chunk.  After any run of such reads the monitor
    is still reading and has printed, in order, one line per non-empty
    chunk and one per error. *)
Theorem monitor_reads_on port e s rs :
  Serial_error e (opens s) port 115200 = None ->
  (forall k r, rs !! k = Some r ->
     readline e (reads s + k) = r /\ goes_on r = true) ->
  (read_com (length rs) port e s).1 = Looping
  /\ out (read_com (length rs) port e s).2
     = out s ++ [EPrint (opening_line port); ESerial port 115200]
       ++ concat (map read_output rs).
Proof.
  intros Hopen Hrs.
  unfold read_com, serial_baudrate, try_except, bind, print, serial_Serial.
  cbn [opens log]. rewrite Hopen. fold (opening_line port).
  destruct (read_loop_run rs e
              (opened (log [ESerial port 115200] (log [EPrint (opening_line port)] s))))
    as (s' & -> & Ho & _); [done|].
  split; [done|]. cbn [snd]. rewrite Ho. simpl. by rewrite <- !app_assoc.
Qed.

Lemma monitor_reads_on_witness :
  let e := with_readline
             (fun k => match k with
                       | 0%nat => Raises (OSError #"[Errno 5] Input/output error")
                       | 1%nat => Ok (#"up" ++ [10%N])
                       | _ => Raises KeyboardInterrupt
                       end)
             (with_Serial_error (fun _ _ _ => None) offline) in
  (read_com 2 #"COM5" e boot).1 = Looping
  /\ out (read_com 2 #"COM5" e boot).2
     = [EPrint #"Opening serial connection on COM5 ..."; ESerial #"COM5" 115200;
        EPrint #"[Errno 5] Input/output error"; EPrint #"up"].
Proof.
  intros e.
  apply (monitor_reads_on #"COM5" e boot
           [Raises (OSError #"[Errno 5] Input/output error"); Ok (#"up" ++ [10%N])]).
  - reflexivity.
  - intros k r Hk. destruct k as [|[|k]]; simpl in Hk; try discriminate;
      injection Hk as <-; by split.
Defined.

(** *** [wait_for_device_reconnect] *)

Lemma slept_app evs1 evs2 : slept (evs1 ++ evs2) = slept evs1 + slept evs2.
Proof.
  induction evs1 as [|ev evs1 IH]; simpl; [done|]. destruct ev; lia.
Qed.

Lemma copies_app evs1 evs2 : copies (evs1 ++ evs2) = copies evs1 ++ copies evs2.
Proof. apply omap_app. Qed.

Lemma probe_quiet_events port e s :
  0 <= slept (probe_events port e s) <= 3 /\ copies (probe_events port e s) = [].
Proof.
  unfold probe_events, settle_events, drive_events.
  destruct (Serial_error _ _ _ _), (drive_of _); simpl; split; (lia || done).
Qed.

(** The effects of a pass: it opens a prefix of its ports, in order, one
    volume query and at most 3 seconds of sleep per port. *)
Lemma pass_trace e ports : forall s,
  exists k evs,
    (k <= length ports)%nat
    /\ out (pass e ports s).2 = out s ++ evs
    /\ opened_ports evs = map (fun p => (p, 1200)) (take k ports)
    /\ polls (pass e ports s).2 = (polls s + k)%nat
    /\ 0 <= slept evs <= 3 * Z.of_nat k
    /\ copies evs = []
    /\ ((pass e ports s).1 = None -> k = length ports)
    /\ (forall p d, (pass e ports s).1 = Some (p, d) ->
          exists i, k = S i /\ ports !! i = Some p).
Proof.
  induction ports as [|q ports IH]; intros s; simpl.
  - exists 0%nat, []. rewrite app_nil_r, Nat.add_0_r. repeat split; (done || lia).
  - destruct (probe_quiet_events q e s) as [Hsl Hco].
    destruct (hit (disk_partitions e (polls s))) as [d|] eqn:Hq.
    + exists 1%nat, (probe_events q e s). cbn [fst snd].
      split; [simpl; lia|]. split; [done|]. split; [apply opened_probe|].
      split; [simpl; lia|]. split; [lia|]. split; [exact Hco|].
      split; [done|]. intros p d' [= <- <-]. by exists 0%nat.
    + destruct (IH (after_probe q e s)) as (k & evs & Hk & Ho & Hop & Hp & Hs & Hc & Hn & Hsome).
      exists (S k), (probe_events q e s ++ evs). simpl in Ho, Hp.
      split; [lia|]. split; [by rewrite Ho, <- app_assoc|].
      split; [by rewrite opened_ports_app, opened_probe, Hop|].
      split; [lia|]. split; [rewrite slept_app; lia|].
      split; [by rewrite copies_app, Hco, Hc|].
      split; [intros H; by rewrite (Hn H)|].
      intros p d H. destruct (Hsome p d H) as (i & -> & Hi). by exists (S i).
Qed.


(** X9. The reconnect wait sleeps at most 3 seconds per port it opens, so
    at most 3 seconds for each registry port and 45 for the range scan. *)
Theorem wait_sleeps_three_seconds_per_port e s :
  0 <= slept (added s (wait_for_device_reconnect e s).2)
    <= 3 * Z.of_nat (length (opened_ports (added s (wait_for_device_reconnect e s).2)))
  /\ slept (added s (wait_for_device_reconnect e s).2)
     <= 3 * Z.of_nat (length (registry_ports e)) + 45.
Proof.
  destruct (wait_pass e s) as (_ & _ & Ho).
  set (s1 := log [EPrint #"Waiting for Raspberry Pi Pico to reconnect..."] s) in *.
  destruct (pass_trace e (candidates e) s1)
    as (k & evs & Hk & Hout & Hop & _ & Hs & _).
  assert (Hadd : added s (wait_for_device_reconnect e s).2
                 = [EPrint #"Waiting for Raspberry Pi Pico to reconnect..."] ++ evs).
  { apply added_app. rewrite Ho, Hout. subst s1. simpl. by rewrite <- app_assoc. }
  rewrite Hadd. change (slept ([EPrint _] ++ evs)) with (slept evs).
  change (opened_ports ([EPrint _] ++ evs)) with (opened_ports evs).
  rewrite Hop, length_map, length_take.
  assert (Hlen : length (candidates e) = (length (registry_ports e) + 15)%nat).
  { unfold candidates. by rewrite length_app. }
  split; lia.
Qed.

(** X10. The only thing the reconnect wait ever writes to the shelve
    database is the port it returns, under the key [comPort]: a wait that
    returns [None] leaves the database as it was (absent, if it was), and
    every other key of an existing database keeps its value. *)
Theorem wait_writes_only_the_port e s :
  ((wait_for_device_reconnect e s).1 = Ret None ->
   shelf (wait_for_device_reconnect e s).2 = shelf s)
  /\ (forall p d,
        (wait_for_device_reconnect e s).1 = Ret (Some (p, d)) ->
        shelf (wait_for_device_reconnect e s).2 = shelf s
        \/ shelf (wait_for_device_reconnect e s).2
           = Some (<[storage_key := p]> (default ∅ (shelf s))))
  /\ (forall db key,
        shelf s = Some db -> key <> storage_key ->
        exists db', shelf (wait_for_device_reconnect e s).2 = Some db'
                    /\ db' !! key = db !! key).
Proof.
  rewrite wait_eq.
  set (s1 := log [EPrint #"Waiting for Raspberry Pi Pico to reconnect..."] s).
  pose proof (pass_shelf e (registry_ports e) s1) as H1.
  change (shelf s1) with (shelf s) in H1.
  destruct (pass e (registry_ports e) s1) as [[[p1 d1]|] s2];
    cbn [fst snd] in H1 |- *.
  { rewrite H1. split; [done|]. split; [intros p d _; by left|].
    intros db key Hdb _. by exists db. }
  pose proof (pass_shelf e range_ports s2) as H2.
  destruct (pass e range_ports s2) as [[[p2 d2]|] s3];
    cbn [fst snd stored shelf] in H2 |- *; rewrite H2, H1.
  - split; [done|]. split.
    + intros p d [= <- <-]. by right.
    + intros db key Hdb Hkey. rewrite Hdb. eexists. split; [done|].
      simpl. by rewrite lookup_insert_ne.
  - split; [done|]. split; [done|].
    intros db key Hdb _. by exists db.
Qed.

Lemma wait_writes_only_the_port_witness :
  let e := with_partitions (appears_at 3) (with_registry two_ports offline) in
  let s := stored #"baudrate" #"115200" boot in
  exists db', shelf (wait_for_device_reconnect e s).2 = Some db'
              /\ db' !! #"baudrate" = ({[ #"baudrate" := #"115200" ]} : gmap str str) !! #"baudrate".
Proof.
  intros e s.
  apply (proj2 (proj2 (wait_writes_only_the_port e s))).
  - reflexivity.
  - discriminate.
Defined.

(** *** [main] *)

Lemma get_com_starts port e s :
  starts (get_com_and_partion port) e s [EPrint (opening_line port); ESerial port 1200].
Proof.
  unfold starts. rewrite get_com_eq. simpl. unfold probe_events. by eexists.
Qed.





Lemma wait_starts e s :
  starts wait_for_device_reconnect e s
    [EPrint #"Waiting for Raspberry Pi Pico to reconnect..."].
Proof.
  unfold starts. destruct (wait_pass e s) as (_ & _ & ->).
  destruct (pass_trace e (candidates e)
              (log [EPrint #"Waiting for Raspberry Pi Pico to reconnect..."] s))
    as (k & evs & _ & -> & _).
  exists evs. simpl. by rewrite <- app_assoc.
Qed.

(** X15. The first run: with nothing remembered and no bootloader volume
    mounted, [main] goes to the reconnect wait right after the volume
    query; once the wait resolves a port, [main] copies the image onto the
    volume found, sleeps 5 seconds and opens that port at 115200 baud. *)
Theorem main_waits_flashes_then_monitors fuel e s n p d prog path rest size :
  path_exists e storage_name = false ->
  absent (disk_partitions e (polls s)) ->
  candidates e !! n = Some p ->
  (forall j, (j < n)%nat -> hit (disk_partitions e (S (polls s) + j)) = None) ->
  hit (disk_partitions e (S (polls s) + n)) = Some d ->
  sys_argv e = prog :: path :: rest -> path_exists e path = true ->
  path_getsize e path = Ok size -> copy_error e path d = None ->
  starts (main fuel) e s
    [EPartitions; EPrint #"No partitions found.";
     EPrint #"Waiting for Raspberry Pi Pico to reconnect..."]
  /\ reaches (main fuel) e s
       [EPrint (#"Copying file " ++ path ++ #" to " ++ d
                ++ #". File size: " ++ str_int size ++ #" bytes");
        ECopy path d;
        EPrint #"File copied successfully.";
        EPrint (#"Wait connecting to " ++ d ++ #" (" ++ partitionName ++ #") ...");
        ESleep 5;
        EPrint #"Connecting to Raspberry Pi Pico...";
        EPrint (opening_line p); ESerial p 115200].
Proof.
  intros Hstore Habs Hn Hmiss Hd Hargv Hexists Hsize Hcopy.
  apply absent_drive_of in Habs. split.
  - unfold main.
    apply (starts_cons _ _ e s false s []);
      [unfold os_path_exists; by rewrite Hstore | by rewrite app_nil_r |].
    apply (starts_cons _ _ e s None s []); [done | by rewrite app_nil_r |].
    eapply (starts_cons _ _ _ _ _ _ [EPartitions]); [apply find_eq | |].
    { unfold drive_events. rewrite Habs. simpl. by rewrite app_nil_r. }
    rewrite Habs.
    eapply (starts_cons _ _ _ _ _ _ [_]); [reflexivity | done |].
    eapply (starts_cons _ _ _ _ _ _ []); [reflexivity | by rewrite app_nil_r |].
    apply starts_now; [apply wait_starts|].
    intros data. apply extends_bind; [|intros; apply extends_print].
    destruct data as [[comPort partition]|]; [|apply extends_ret].
    pose proof extends_copyFile. pose proof (extends_read_com fuel). extends_tac.
  - unfold main.
    apply (reaches_later _ _ e s false s);
      [unfold os_path_exists; by rewrite Hstore | apply extends_refl |].
    apply (reaches_later _ _ e s None s); [done | apply extends_refl |].
    eapply reaches_later; [apply find_eq | simpl; eexists; by rewrite <- app_assoc |].
    rewrite Habs.
    eapply reaches_later; [reflexivity | by eexists |].
    eapply reaches_later; [reflexivity | apply extends_refl |].
    destruct (wait_hit e (log [EPrint #"No partitions found."]
                (log (drive_events (disk_partitions e (polls s)))
                   (polled (log [EPartitions] s)))) n p d Hn Hmiss Hd)
      as (s' & evs & Hwait & Hevs).
    eapply reaches_later; [exact Hwait | by exists evs |].
    apply starts_reaches, starts_assoc.
    eapply (starts_cons _ _ _ _ _ _ [_; _; _; _; _]);
      [by eapply copyFile_success | done |].
    apply starts_assoc.
    eapply (starts_cons _ _ _ _ _ _ [_]); [reflexivity | done |].
    apply starts_now; [apply read_com_starts|].
    intros _. apply extends_print.
Qed.

Lemma main_waits_flashes_then_monitors_witness :
  let e := with_only_file #"firmware.uf2" 4096
             (with_partitions (appears_at 3) (with_registry two_ports offline)) in
  starts (main 1) e boot
    [EPartitions; EPrint #"No partitions found.";
     EPrint #"Waiting for Raspberry Pi Pico to reconnect..."]
  /\ reaches (main 1) e boot
       [EPrint #"Copying file firmware.uf2 to E:\. File size: 4096 bytes";
        ECopy #"firmware.uf2" #"E:\";
        EPrint #"File copied successfully.";
        EPrint #"Wait connecting to E:\ (RPI-RP2) ...";
        ESleep 5;
        EPrint #"Connecting to Raspberry Pi Pico...";
        EPrint #"Opening serial connection on COM1 ..."; ESerial #"COM1" 115200].
Proof.
  intros e.
  apply (main_waits_flashes_then_monitors 1 e boot 2 #"COM1" #"E:\"
           #"flash.py" #"firmware.uf2" [] 4096); try reflexivity.
  - repeat constructor; discriminate.
  - intros j Hj. destruct j as [|[|j]]; [reflexivity | reflexivity | lia].
Defined.

(** *** What the monitor prints *)

Lemma lstrip_spec l :
  exists pre,
    l = pre ++ lstrip l /\ Forall (fun c => isspace c = true) pre
    /\ forall c, head (lstrip l) = Some c -> isspace c = false.
Proof.
  induction l as [|a l (pre & Hl & Hpre & Hhead)]; simpl.
  - exists []. repeat split; [constructor | done].
  - destruct (isspace a) eqn:Ha.
    + exists (a :: pre). simpl. rewrite <- Hl. repeat split; [by constructor | done].
    + exists []. repeat split; [constructor|]. by intros c [= <-].
Qed.

Lemma last_rev (l : list N) : last (rev l) = head l.
Proof. destruct l as [|a l]; simpl; [done | apply last_snoc]. Qed.

Lemma rstrip_spec l :
  exists post,
    l = rstrip l ++ post /\ Forall (fun c => isspace c = true) post
    /\ forall c, last (rstrip l) = Some c -> isspace c = false.
Proof.
  unfold rstrip. destruct (lstrip_spec (rev l)) as (pre & Hl & Hpre & Hhead).
  exists (rev pre). split; [|split].
  - rewrite <- rev_app_distr, <- Hl. by rewrite rev_involutive.
  - by apply Forall_rev.
  - intros c. rewrite last_rev. apply Hhead.
Qed.

(** X16. The line the monitor prints for a chunk that decodes is the decoded
    text with white space removed from its two ends and nothing else: what
    is cut off at either end is white space only, and the line neither
    starts nor ends with white space. *)
Theorem monitor_line_is_trimmed data text :
  data <> [] -> decode data = Ok text ->
  exists line pre post,
    line_output data = [EPrint line]
    /\ text = pre ++ line ++ post
    /\ Forall (fun c => isspace c = true) pre
    /\ Forall (fun c => isspace c = true) post
    /\ (forall c, head line = Some c -> isspace c = false)
    /\ (forall c, last line = Some c -> isspace c = false).
Proof.
  intros Hne Hdec. exists (strip text).
  destruct (lstrip_spec text) as (pre & Hl & Hpre & Hhead).
  destruct (rstrip_spec (lstrip text)) as (post & Hr & Hpost & Hlast).
  exists pre, post. split; [|split; [|split; [|split; [|split]]]]; try done.
  - unfold line_output. destruct data; [done|]. by rewrite Hdec.
  - unfold strip. by rewrite <- Hr.
  - intros c Hc. apply Hhead. rewrite Hr. unfold strip in Hc.
    by destruct (rstrip (lstrip text)).
Qed.

Lemma monitor_line_is_trimmed_witness :
  exists line pre post,
    line_output (#"  boot ok " ++ [13; 10]%N) = [EPrint line]
    /\ #"  boot ok " ++ [13; 10]%N = pre ++ line ++ post
    /\ Forall (fun c => isspace c = true) pre
    /\ Forall (fun c => isspace c = true) post
    /\ (forall c, head line = Some c -> isspace c = false)
    /\ (forall c, last line = Some c -> isspace c = false).
Proof.
  apply (monitor_line_is_trimmed (#"  boot ok " ++ [13; 10]%N) (#"  boot ok " ++ [13; 10]%N));
    [discriminate | reflexivity].
Defined.

Lemma utf8_decode_ascii data : forall pos,
  Forall (fun b => (b < 128)%N) data -> utf8_decode_at pos data = Text data.
Proof.
  induction data as [|b data IH]; intros pos H; [done|].
  inversion H as [|? ? Hb Hdata]; subst. cbn [utf8_decode_at].
  apply N.ltb_lt in Hb. rewrite Hb, (IH _ Hdata). done.
Qed.

(** X17. A chunk of ASCII octets decodes to the same characters, so the
    monitor prints it as it came, trimmed. *)
Theorem monitor_prints_ascii_as_is b data :
  Forall (fun c => (c < 128)%N) (b :: data) ->
  line_output (b :: data) = [EPrint (strip (b :: data))].
Proof.
  intros H. unfold line_output, decode, utf8_decode.
  by rewrite (utf8_decode_ascii _ _ H).
Qed.

Lemma monitor_prints_ascii_as_is_witness :
  line_output (#"temp=21.5C" ++ [10%N]) = [EPrint #"temp=21.5C"].
Proof.
  apply (monitor_prints_ascii_as_is 116%N (#"emp=21.5C" ++ [10%N])).
  repeat constructor.
Defined.

(** *** How runs end and what decides them *)

Lemma returns_after_bind {A B} (c : M A) (k : A -> M B) ev :
  (forall a, returns_after (k a) ev) -> returns_after (bind c k) ev.
Proof.
  intros Hk e s b. unfold bind.
  destruct (c e s) as [[a|x|] s']; [apply Hk | done | done].
Qed.

Lemma returns_after_print line : returns_after (print line) (EPrint line).
Proof. intros e s a _. simpl. apply last_snoc. Qed.

(** X18. [main] returns to its caller only after printing, as the last
    thing it does, that it could not establish a connection; together with
    X6, a run whose monitor port opened never returns. *)
Theorem main_returns_only_after_giving_up fuel e s :
  (main fuel e s).1 = Ret tt ->
  last (out (main fuel e s).2)
  = Some (EPrint #"Could not establish connection to the Raspberry Pi Pico.").
Proof.
  assert (H : returns_after (main fuel)
    (EPrint #"Could not establish connection to the Raspberry Pi Pico.")).
  { unfold main. repeat (apply returns_after_bind; intros ?).
    apply returns_after_print. }
  apply H.
Qed.

Lemma main_returns_only_after_giving_up_witness :
  last (out (main 1 offline boot).2)
  = Some (EPrint #"Could not establish connection to the Raspberry Pi Pico.").
Proof.
  apply (main_returns_only_after_giving_up 1 offline boot). reflexivity.
Defined.

Lemma pass_ignores_opens e f ports : forall s1 s2,
  polls s1 = polls s2 ->
  (pass (with_Serial_error f e) ports s1).1 = (pass e ports s2).1.
Proof.
  induction ports as [|q ports IH]; intros s1 s2 Hp; simpl; [done|].
  rewrite Hp. destruct (hit _); [done|]. apply IH. simpl. by rewrite Hp.
Qed.

(** X19. Which pair the reconnect wait returns does not depend on whether
    any port opens: with the same registry and the same volume queries, the
    wait returns the same result whatever [serial.Serial] does. *)
Theorem wait_result_ignores_opens f e s :
  (wait_for_device_reconnect (with_Serial_error f e) s).1
  = (wait_for_device_reconnect e s).1.
Proof.
  destruct (wait_pass (with_Serial_error f e) s) as (-> & _).
  destruct (wait_pass e s) as (-> & _).
  f_equal. by apply pass_ignores_opens.
Qed.

(** *** Across runs *)

Lemma main_reads_then_touches fuel e s db p :
  path_exists e storage_name = true ->
  shelf s = Some db -> db !! storage_key = Some p -> p <> [] ->
  absent (disk_partitions e (polls s)) ->
  starts (main fuel) e s
    [EPartitions; EPrint #"No partitions found.";
     EPrint (opening_line p); ESerial p 1200].
Proof.
  intros Hstore Hshelf Hkey Hp Habs. unfold main.
  apply (starts_cons _ _ e s true s []);
    [unfold os_path_exists; by rewrite Hstore | by rewrite app_nil_r |].
  apply (starts_cons _ _ e s (Some p) s []);
    [unfold shelve_get; by rewrite Hshelf, Hkey | by rewrite app_nil_r |].
  apply absent_drive_of in Habs.
  eapply (starts_cons _ _ _ _ _ _ [EPartitions]); [apply find_eq | |].
  { unfold drive_events. rewrite Habs. simpl. by rewrite app_nil_r. }
  rewrite Habs. destruct p as [|c p]; [done|]. cbn [truthy].
  eapply (starts_cons _ _ _ _ _ _ [_]); [reflexivity | done |].
  apply starts_now; [apply get_com_starts|].
  intros data. pose proof extends_wait. pose proof extends_copyFile.
  pose proof (extends_read_com fuel). extends_tac.
Qed.

Lemma range_port_not_empty p : p ∈ range_ports -> p <> [].
Proof.
  unfold range_ports. intros (port & -> & _)%list_elem_of_fmap. by unfold com.
Qed.

(** X11. A port resolved by the range scan is remembered across runs: when
    a later run of [main] finds the shelve file ([os.path.exists] answers
    true for it) and no bootloader volume mounted, it reads that port back
    from the database the wait left and, right after the volume query,
    touches it at 1200 baud. *)
Theorem range_hit_is_remembered fuel e e2 s n p d :
  (length (registry_ports e) <= n)%nat ->
  candidates e !! n = Some p ->
  (forall j, (j < n)%nat -> hit (disk_partitions e (polls s + j)) = None) ->
  hit (disk_partitions e (polls s + n)) = Some d ->
  path_exists e2 storage_name = true ->
  absent (disk_partitions e2 0) ->
  (wait_for_device_reconnect e s).1 = Ret (Some (p, d))
  /\ starts (main fuel) e2 (restart (wait_for_device_reconnect e s).2)
       [EPartitions; EPrint #"No partitions found.";
        EPrint (opening_line p); ESerial p 1200].
Proof.
  intros Hlen Hn Hmiss Hhit Hstore Habs. rewrite wait_eq.
  set (s1 := log [EPrint #"Waiting for Raspberry Pi Pico to reconnect..."] s).
  destruct (pass_miss e (registry_ports e) s1) as (s2 & evs2 & -> & Hp2 & _).
  { intros j Hj. apply Hmiss. lia. }
  unfold candidates in Hn. rewrite lookup_app_r in Hn by done.
  assert (Hp : p <> []).
  { apply range_port_not_empty. by eapply list_elem_of_lookup_2. }
  destruct (pass_hit e range_ports s2 (n - length (registry_ports e)) p d Hn)
    as (s3 & evs3 & -> & _).
  - intros j Hj. rewrite Hp2. simpl. rewrite <- Nat.add_assoc. apply Hmiss. lia.
  - rewrite Hp2. simpl. rewrite <- Nat.add_assoc.
    by replace (length (registry_ports e) + (n - length (registry_ports e)))%nat
      with n by lia.
  - split; [done|]. cbn [fst snd].
    apply (main_reads_then_touches fuel e2 _
             (<[storage_key := p]> (default ∅ (shelf s3))) p);
      [done | done | apply lookup_insert_eq | done | done].
Qed.

Lemma range_hit_is_remembered_witness :
  let e := with_partitions (appears_at 3) (with_registry two_ports offline) in
  (wait_for_device_reconnect e boot).1 = Ret (Some (#"COM2", #"E:\"))
  /\ starts (main 1) (with_store_file offline)
       (restart (wait_for_device_reconnect e boot).2)
       [EPartitions; EPrint #"No partitions found.";
        EPrint #"Opening serial connection on COM2 ..."; ESerial #"COM2" 1200].
Proof.
  intros e.
  apply (range_hit_is_remembered 1 e (with_store_file offline) boot 3 #"COM2" #"E:\").
  - simpl. lia.
  - reflexivity.
  - intros j Hj. destruct j as [|[|[|j]]]; [reflexivity ..| lia].
  - reflexivity.
  - reflexivity.
  - repeat constructor; discriminate.
Defined.

(** *** A label lookup that fails *)

(** The touch of a probe: it always completes, whatever the open does. *)
Lemma touch_eq port e s :
  try_except
    (print (#"Opening serial connection on " ++ port ++ #" ...") ;;
     serial_Serial port 1200)
    (fun _ => Some (time_sleep 3)) e s
  = (Ret tt,
     log (settle_events e s port)
       (opened (log [ESerial port 1200] (log [EPrint (opening_line port)] s)))).
Proof.
  unfold try_except, bind, print, serial_Serial, time_sleep, settle_events.
  cbn [opens log]. destruct (Serial_error e (opens s) port 1200); [done|].
  by rewrite log_nil.
Qed.

(** X20. A label lookup that raises before any partition has matched stops
    the matcher with that exception: nothing is printed and the partitions
    after it are not looked at.  The probe does not absorb it (the matcher
    is called outside its [try]): after the touch, the sleep if the open
    failed, and the volume query, the exception leaves
    [get_com_and_partion]. *)
Theorem label_lookup_failure_leaves_the_probe partitions_at port e s pre p post x :
  partitions_at (polls s) = pre ++ p :: post ->
  Forall Unguarded.other pre ->
  Unguarded.GetVolumeInformation p = Raises x ->
  Unguarded.find_rpi_rp2_drive partitions_at e s
    = (Raise x, polled (log [EPartitions] s))
  /\ (Unguarded.get_com_and_partion partitions_at port e s).1 = Raise x
  /\ out (Unguarded.get_com_and_partion partitions_at port e s).2
     = out s ++ [EPrint (opening_line port); ESerial port 1200]
       ++ settle_events e s port ++ [EPartitions].
Proof.
  intros Hparts Hpre Hp.
  assert (Hfind : forall s0, polls s0 = polls s ->
    Unguarded.find_rpi_rp2_drive partitions_at e s0
    = (Raise x, polled (log [EPartitions] s0))).
  { intros s0 Hs0. unfold Unguarded.find_rpi_rp2_drive, bind.
    rewrite Hs0, Hparts, unguarded_find_loop_skip by done.
    by rewrite (unguarded_find_loop_raise _ _ _ _ x). }
  split; [by apply Hfind|].
  assert (Hprobe : Unguarded.get_com_and_partion partitions_at port e s
    = (Raise x,
       polled (log [EPartitions]
         (log (settle_events e s port)
            (opened (log [ESerial port 1200]
                       (log [EPrint (opening_line port)] s))))))).
  { unfold Unguarded.get_com_and_partion. unfold bind at 1. rewrite touch_eq.
    unfold bind at 1. by rewrite Hfind. }
  rewrite Hprobe. split; [done|]. simpl. by rewrite <- !app_assoc.
Qed.

Lemma label_lookup_failure_leaves_the_probe_witness :
  let not_ready :=
    Unguarded.Partition #"D:\" (Raises (OtherError #"(21, 'GetVolumeInformation', 'The device is not ready.')")) in
  let rp2 := Unguarded.Partition #"E:\" (Ok #"RPI-RP2") in
  Unguarded.find_rpi_rp2_drive (fun _ => [not_ready; rp2]) offline boot
    = (Raise (OtherError #"(21, 'GetVolumeInformation', 'The device is not ready.')"),
       polled (log [EPartitions] boot))
  /\ (Unguarded.get_com_and_partion (fun _ => [not_ready; rp2]) #"COM3" offline boot).1
     = Raise (OtherError #"(21, 'GetVolumeInformation', 'The device is not ready.')")
  /\ out (Unguarded.get_com_and_partion (fun _ => [not_ready; rp2]) #"COM3" offline boot).2
     = out boot ++ [EPrint (opening_line #"COM3"); ESerial #"COM3" 1200]
       ++ settle_events offline boot #"COM3" ++ [EPartitions].
Proof.
  intros not_ready rp2.
  apply (label_lookup_failure_leaves_the_probe (fun _ => [not_ready; rp2]) #"COM3"
           offline boot [] not_ready [rp2]);
    [reflexivity | constructor | reflexivity].
Defined.
